(** * Quantum-distance clustering: a shallow embedding

    The development follows the three modules of the program:
    [app/feature_map.py], [app/quantum_distance.py] and
    [app/quantum_clustering.py].

    Numbers.  NumPy's [float64] and [complex128] values are read as real
    numbers [R] and as pairs of reals; rounding, infinities and NaN are
    outside the model.  Arrays are lists, matrices are lists of rows.

    Failure.  A Python exception is a value [Err e] of the type [result];
    code that raises part of the way through returns no partial result. *)

From Stdlib Require Import Reals Lra Lia List ZArith NArith Bool Arith PeanoNat.
From Stdlib Require Import Permutation.
Import ListNotations.

(* ================================================================== *)
(** ** Exceptions and the error monad *)

(** The exceptions the modelled code paths can raise. *)
Inductive exn : Type :=
| ValueError        (* NumPy: bad sample size, empty argmin, shape mismatch *)
| IndexError        (* NumPy: index out of bounds *)
| AttributeError    (* attribute access on [None] *)
| UnboundParameter  (* Qiskit: a circuit with a free parameter is simulated *)
| CircuitError.     (* Qiskit: a gate names a qubit the circuit lacks *)

Inductive result (A : Type) : Type :=
| Ok  : A -> result A
| Err : exn -> result A.

Arguments Ok {A} _.
Arguments Err {A} _.

Definition bind {A B : Type} (m : result A) (f : A -> result B) : result B :=
  match m with
  | Ok a => f a
  | Err e => Err e
  end.

Notation "x <- m ;; k" := (bind m (fun x => k))
  (at level 61, m at next level, right associativity).
Notation "' p <- m ;; k" := (bind m (fun p => k))
  (at level 61, p pattern, m at next level, right associativity).

(** [mapM f l]: a list comprehension whose body may raise; the first
    exception, in list order, is the one that propagates. *)
Fixpoint mapM {A B : Type} (f : A -> result B) (l : list A) : result (list B) :=
  match l with
  | [] => Ok []
  | a :: l' => b <- f a ;; bs <- mapM f l' ;; Ok (b :: bs)
  end.

Definition fails {A : Type} (m : result A) : Prop := exists e, m = Err e.

(* ================================================================== *)
(** ** Complex amplitudes *)

Local Open Scope R_scope.

Module Cx.

Definition C : Type := (R * R)%type.

Definition re (z : C) : R := fst z.
Definition im (z : C) : R := snd z.

Definition zero : C := (0, 0).
Definition one : C := (1, 0).

Definition add (a b : C) : C := (re a + re b, im a + im b).
Definition mul (a b : C) : C :=
  (re a * re b - im a * im b, re a * im b + im a * re b).
Definition conj (a : C) : C := (re a, - im a).
Definition of_R (r : R) : C := (r, 0).

(** [e^{i t}] *)
Definition expi (t : R) : C := (cos t, sin t).

(** squared modulus and modulus ([np.abs] of a complex number) *)
Definition norm2 (a : C) : R := re a * re a + im a * im a.
Definition abs (a : C) : R := sqrt (norm2 a).

End Cx.

(** A statevector as the program holds it: a one-dimensional complex
    array. *)
Definition statevector : Type := list Cx.C.

(* ================================================================== *)
(** ** [app/quantum_distance.py] *)

(** [np.vdot(a, b)]: the sum of [conj(a[i]) * b[i]]; arrays of different
    sizes raise [ValueError]. *)
Fixpoint vdot_sum (a b : list Cx.C) : Cx.C :=
  match a, b with
  | x :: a', y :: b' => Cx.add (Cx.mul (Cx.conj x) y) (vdot_sum a' b')
  | _, _ => Cx.zero
  end.

Definition vdot (a b : list Cx.C) : result Cx.C :=
  if Nat.eqb (length a) (length b) then Ok (vdot_sum a b) else Err ValueError.

(** [fidelity]: [overlap = np.vdot(state1, state2)], then
    [float(np.abs(overlap) ** 2)]. *)
Definition fidelity (state1 state2 : statevector) : result R :=
  overlap <- vdot state1 state2 ;;
  Ok ((Cx.abs overlap) ^ 2).

(** [quantum_distance]: [1.0 - fidelity(state1, state2)]. *)
Definition quantum_distance (state1 state2 : statevector) : result R :=
  f <- fidelity state1 state2 ;;
  Ok (1 - f).

(** [compute_quantum_kernel]: [kernel[i, j] = fidelity(statevectors[i],
    statevectors[j])], row after row, for the rows of a two-dimensional
    array. *)
Definition compute_quantum_kernel (statevectors : list statevector)
  : result (list (list R)) :=
  mapM (fun state_i => mapM (fun state_j => fidelity state_i state_j) statevectors)
       statevectors.

(** [np.sum(np.abs(state) ** 2)], the squared-amplitude sum the tests
    compare with 1. *)
Definition sq_amp_sum (s : statevector) : R :=
  fold_right Rplus 0 (map (fun z => (Cx.abs z) ^ 2) s).

(** [np.isclose(a, b, atol=tol)] with NumPy's default [rtol = 1e-5]:
    [|a - b| <= atol + rtol * |b|]. *)
Definition isclose_atol (a b tol : R) : Prop :=
  Rabs (a - b) <= tol + 1 / 100000 * Rabs b.

(* ================================================================== *)
(** ** [app/feature_map.py] *)

(** *** Parameterized circuits

    A circuit is the list of its instructions; a rotation angle is an
    expression over the elements [x[i]] of one [ParameterVector]. *)

Inductive pexpr : Type :=
| PConst (r : R)
| PVar (i : nat)              (* the vector element [x[i]] *)
| PMul (a b : pexpr)
| PSub (a b : pexpr)
| PDiv (a b : pexpr).

Inductive gate : Type :=
| Gate_h  (q : nat)
| Gate_ry (theta : pexpr) (q : nat)
| Gate_rz (phi : pexpr) (q : nat)
| Gate_p  (lam : pexpr) (q : nat)
| Gate_cx (c t : nat).

Record QuantumCircuit : Type := mkCircuit {
  num_qubits : nat;
  data : list gate
}.

Fixpoint pexpr_vars (e : pexpr) : list nat :=
  match e with
  | PConst _ => []
  | PVar i => [i]
  | PMul a b | PSub a b | PDiv a b => pexpr_vars a ++ pexpr_vars b
  end.

Definition gate_vars (g : gate) : list nat :=
  match g with
  | Gate_h _ | Gate_cx _ _ => []
  | Gate_ry e _ | Gate_rz e _ | Gate_p e _ => pexpr_vars e
  end.

Definition circuit_vars (qc : QuantumCircuit) : list nat :=
  flat_map gate_vars (data qc).

(** [qc.parameters]: the free parameters of the circuit, each once, in
    the order of their index in the vector. *)
Definition parameters (qc : QuantumCircuit) : list nat :=
  filter (fun i => existsb (Nat.eqb i) (circuit_vars qc))
         (seq 0 (S (list_max (circuit_vars qc)))).

(** The dictionary [{p: float(val) for p, val in zip(...)}]. *)
Definition binding : Type := list (nat * R).

Fixpoint lookup (i : nat) (d : binding) : option R :=
  match d with
  | [] => None
  | (j, v) :: d' => if Nat.eqb i j then Some v else lookup i d'
  end.

Fixpoint pexpr_bind (d : binding) (e : pexpr) : pexpr :=
  match e with
  | PConst r => PConst r
  | PVar i => match lookup i d with Some v => PConst v | None => PVar i end
  | PMul a b => PMul (pexpr_bind d a) (pexpr_bind d b)
  | PSub a b => PSub (pexpr_bind d a) (pexpr_bind d b)
  | PDiv a b => PDiv (pexpr_bind d a) (pexpr_bind d b)
  end.

Definition gate_bind (d : binding) (g : gate) : gate :=
  match g with
  | Gate_h q => Gate_h q
  | Gate_ry e q => Gate_ry (pexpr_bind d e) q
  | Gate_rz e q => Gate_rz (pexpr_bind d e) q
  | Gate_p e q => Gate_p (pexpr_bind d e) q
  | Gate_cx c t => Gate_cx c t
  end.

(** [qc.bind_parameters(d)]: a new circuit, the parameters of [d]
    replaced by their values, the others left free. *)
Definition bind_parameters (qc : QuantumCircuit) (d : binding) : QuantumCircuit :=
  mkCircuit (num_qubits qc) (map (gate_bind d) (data qc)).

(** The numeric value of an angle; an expression that still has a free
    parameter has none. *)
Fixpoint pexpr_value (e : pexpr) : result R :=
  match e with
  | PConst r => Ok r
  | PVar _ => Err UnboundParameter
  | PMul a b => x <- pexpr_value a ;; y <- pexpr_value b ;; Ok (x * y)
  | PSub a b => x <- pexpr_value a ;; y <- pexpr_value b ;; Ok (x - y)
  | PDiv a b => x <- pexpr_value a ;; y <- pexpr_value b ;; Ok (x / y)
  end.

(** *** The two feature maps *)

(** [build_angle_encoding_map]: on every qubit [i], [ry(x[i], i)] then
    [rz(x[i] / 2, i)]. *)
Definition build_angle_encoding_map (num_qubits : nat) : result QuantumCircuit :=
  Ok (mkCircuit num_qubits
        (flat_map (fun i => [Gate_ry (PVar i) i;
                             Gate_rz (PDiv (PVar i) (PConst 2)) i])
                  (seq 0 num_qubits))).

(** The pairs [(i, j)], [i < j], of the full entanglement pattern. *)
Definition entangler_pairs (n : nat) : list (nat * nat) :=
  flat_map (fun i => map (fun j => (i, j)) (seq (S i) (n - S i))) (seq 0 n).

(** Modelled from the spec: Qiskit's library circuit [ZZFeatureMap]
    (not part of the sources).  One repetition is a Hadamard on every
    qubit, the phase [2 x[i]] on every qubit [i], and for every pair
    [i < j] the phase [2 (pi - x[i]) (pi - x[j])] on [j] between two
    controlled-NOT gates; the library refuses fewer than two qubits. *)
Definition zz_layer (n : nat) : list gate :=
  map Gate_h (seq 0 n)
  ++ map (fun i => Gate_p (PMul (PConst 2) (PVar i)) i) (seq 0 n)
  ++ flat_map (fun ij : nat * nat =>
                 let (i, j) := ij in
                 [Gate_cx i j;
                  Gate_p (PMul (PConst 2)
                            (PMul (PSub (PConst PI) (PVar i))
                                  (PSub (PConst PI) (PVar j)))) j;
                  Gate_cx i j])
              (entangler_pairs n).

Definition ZZFeatureMap (feature_dimension reps : nat) : result QuantumCircuit :=
  if feature_dimension <? 2 then Err ValueError
  else Ok (mkCircuit feature_dimension
             (concat (repeat (zz_layer feature_dimension) reps))).

(** [build_zz_feature_map]: [ZZFeatureMap(feature_dimension=num_qubits,
    reps=reps)]. *)
Definition build_zz_feature_map (num_qubits reps : nat) : result QuantumCircuit :=
  ZZFeatureMap num_qubits reps.

(** *** Statevector simulation

    Modelled from the spec: Qiskit's [Statevector.from_instruction] (not
    part of the sources), as section 9 of the specification describes it:
    the gates are applied as unitary matrices, one after the other, to
    the all-zero basis state.  Amplitude [k] of the array belongs to the
    basis state whose qubit [q] is bit [q] of [k], so the upper half of
    an array over [S m] qubits is the part where qubit [m] is 1. *)

Definition mat2 : Type := (Cx.C * Cx.C * Cx.C * Cx.C)%type.

Definition mat_h : mat2 :=
  (Cx.of_R (/ sqrt 2), Cx.of_R (/ sqrt 2),
   Cx.of_R (/ sqrt 2), Cx.of_R (- / sqrt 2)).

Definition mat_ry (theta : R) : mat2 :=
  (Cx.of_R (cos (theta / 2)), Cx.of_R (- sin (theta / 2)),
   Cx.of_R (sin (theta / 2)), Cx.of_R (cos (theta / 2))).

Definition mat_rz (phi : R) : mat2 :=
  (Cx.expi (- phi / 2), Cx.zero,
   Cx.zero, Cx.expi (phi / 2)).

Definition mat_p (lam : R) : mat2 :=
  (Cx.one, Cx.zero,
   Cx.zero, Cx.expi lam).

Definition mat_x : mat2 :=
  (Cx.zero, Cx.one,
   Cx.one, Cx.zero).

Fixpoint zip_with {A B D : Type} (f : A -> B -> D) (a : list A) (b : list B) : list D :=
  match a, b with
  | x :: a', y :: b' => f x y :: zip_with f a' b'
  | _, _ => []
  end.

(** A row of a 2x2 matrix applied to a pair of amplitudes. *)
Definition row_apply (u v : Cx.C) (a b : Cx.C) : Cx.C :=
  Cx.add (Cx.mul u a) (Cx.mul v b).

(** A one-qubit matrix on qubit [q] of a state over [n] qubits. *)
Fixpoint apply1 (u : mat2) (n q : nat) (st : statevector) : statevector :=
  match n with
  | O => st
  | S m =>
      let lo := firstn (2 ^ m) st in
      let hi := skipn (2 ^ m) st in
      let '(u00, u01, u10, u11) := u in
      if Nat.eqb q m
      then zip_with (row_apply u00 u01) lo hi ++ zip_with (row_apply u10 u11) lo hi
      else apply1 u m q lo ++ apply1 u m q hi
  end.

(** [select m c a b]: the amplitudes of [a] where qubit [c] is 0 and
    those of [b] where it is 1. *)
Fixpoint select (m c : nat) (a b : statevector) : statevector :=
  match m with
  | O => a
  | S p =>
      if Nat.eqb c p
      then firstn (2 ^ p) a ++ skipn (2 ^ p) b
      else select p c (firstn (2 ^ p) a) (firstn (2 ^ p) b)
           ++ select p c (skipn (2 ^ p) a) (skipn (2 ^ p) b)
  end.

(** The controlled-NOT with control [c] and target [t]. *)
Fixpoint apply_cx (n c t : nat) (st : statevector) : statevector :=
  match n with
  | O => st
  | S m =>
      let lo := firstn (2 ^ m) st in
      let hi := skipn (2 ^ m) st in
      if Nat.eqb c m then lo ++ apply1 mat_x m t hi
      else if Nat.eqb t m then select m c lo hi ++ select m c hi lo
      else apply_cx m c t lo ++ apply_cx m c t hi
  end.

Definition check_qubit (n q : nat) : result unit :=
  if q <? n then Ok tt else Err CircuitError.

Definition apply_gate (n : nat) (g : gate) (st : statevector) : result statevector :=
  match g with
  | Gate_h q =>
      _ <- check_qubit n q ;; Ok (apply1 mat_h n q st)
  | Gate_ry e q =>
      _ <- check_qubit n q ;; theta <- pexpr_value e ;;
      Ok (apply1 (mat_ry theta) n q st)
  | Gate_rz e q =>
      _ <- check_qubit n q ;; phi <- pexpr_value e ;;
      Ok (apply1 (mat_rz phi) n q st)
  | Gate_p e q =>
      _ <- check_qubit n q ;; lam <- pexpr_value e ;;
      Ok (apply1 (mat_p lam) n q st)
  | Gate_cx c t =>
      _ <- check_qubit n c ;; _ <- check_qubit n t ;;
      if Nat.eqb c t then Err CircuitError else Ok (apply_cx n c t st)
  end.

Fixpoint run_gates (n : nat) (gs : list gate) (st : statevector) : result statevector :=
  match gs with
  | [] => Ok st
  | g :: gs' => st' <- apply_gate n g st ;; run_gates n gs' st'
  end.

(** The basis state with every qubit 0. *)
Definition zero_state (n : nat) : statevector :=
  Cx.one :: repeat Cx.zero (2 ^ n - 1).

Definition from_instruction (qc : QuantumCircuit) : result statevector :=
  run_gates (num_qubits qc) (data qc) (zero_state (num_qubits qc)).

(** *** [encode_to_statevector]

    [zip] stops at the shorter of the parameter list and the point; with
    no feature map ([None]) the attribute access raises. *)
Definition encode_to_statevector (feature_map : option QuantumCircuit)
                                 (x : list R) : result statevector :=
  match feature_map with
  | None => Err AttributeError
  | Some fm =>
      let bound_circuit := bind_parameters fm (combine (parameters fm) x) in
      state <- from_instruction bound_circuit ;;
      Ok state
  end.

(* ================================================================== *)
(** ** The random source

    [np.random.default_rng(seed)] is a deterministic generator: a state,
    and draws that return a value and the next state.  The generator's
    algorithm is NumPy's; what the program relies on is its contract,
    which the record carries: a sample without replacement has the size
    asked for and holds distinct indices of the population, and a bounded
    integer lies below its bound. *)

Record Generator : Type := mkGenerator {
  gen_state : Type;
  seed_state : N -> gen_state;
  draw_sample : gen_state -> nat -> nat -> list nat * gen_state;
  draw_below : gen_state -> nat -> nat * gen_state;
  draw_sample_length :
    forall g n k, (k <= n)%nat -> length (fst (draw_sample g n k)) = k;
  draw_sample_NoDup :
    forall g n k, NoDup (fst (draw_sample g n k));
  draw_sample_range :
    forall g n k i, In i (fst (draw_sample g n k)) -> (i < n)%nat;
  draw_below_range :
    forall g n, (0 < n)%nat -> (fst (draw_below g n) < n)%nat
}.

(* ================================================================== *)
(** ** [app/quantum_clustering.py] *)

Definition matrix : Type := list (list R).

(** [a[i]] on a list; out of range raises. *)
Definition getitem {A : Type} (a : list A) (i : nat) : result A :=
  match nth_error a i with
  | Some v => Ok v
  | None => Err IndexError
  end.

(** [np.argmin]: the first index of the least value; the empty sequence
    raises. *)
Fixpoint argmin_from (best_i : nat) (best : R) (i : nat) (l : list R) : nat :=
  match l with
  | [] => best_i
  | v :: l' =>
      if Rlt_dec v best then argmin_from i v (S i) l'
      else argmin_from best_i best (S i) l'
  end.

Definition argmin (l : list R) : result nat :=
  match l with
  | [] => Err ValueError
  | v :: l' => Ok (argmin_from 0%nat v 1%nat l')
  end.

(** [X[labels == k]]: the rows of [X] whose label is [k]. *)
Definition cluster_rows (X : matrix) (labels : list nat) (k : nat) : matrix :=
  map fst (filter (fun p => Nat.eqb (snd p) k) (combine X labels)).

(** [pts.mean(axis=0)] for at least one row: the column sums over the
    number of rows. *)
Definition vec_add (a b : list R) : list R := zip_with Rplus a b.

Definition col_sums (pts : matrix) : list R :=
  match pts with
  | [] => []
  | p :: ps => fold_left vec_add ps p
  end.

Definition mean_axis0 (pts : matrix) : list R :=
  map (fun s => s / INR (length pts)) (col_sums pts).

(** [np.allclose(a, b)] with the default tolerances:
    elementwise [|a - b| <= 1e-8 + 1e-5 * |b|]. *)
Definition close (a b : R) : bool :=
  if Rle_dec (Rabs (a - b)) (1 / 100000000 + 1 / 100000 * Rabs b)
  then true else false.

Definition allclose (a b : matrix) : bool :=
  forallb (fun rows => forallb (fun p => close (fst p) (snd p))
                               (combine (fst rows) (snd rows)))
          (combine a b).

(** [_encode_points]. *)
Definition _encode_points (feature_map : option QuantumCircuit)
                          (points : matrix) : result (list statevector) :=
  mapM (encode_to_statevector feature_map) points.

Section Clustering.

Variable G : Generator.

(** [rng.choice(n, size=size, replace=False)]. *)
Definition rng_choice (g : gen_state G) (n : nat) (size : Z)
  : result (list nat * gen_state G) :=
  if (size <? 0)%Z then Err ValueError
  else if (Z.of_nat n <? size)%Z then Err ValueError
  else Ok (draw_sample G g n (Z.to_nat size)).

(** [rng.integers(low, high)]: a value in [[low, high)]; an empty range
    raises. *)
Definition rng_integers (g : gen_state G) (low high : nat)
  : result (nat * gen_state G) :=
  if (high <=? low)%nat then Err ValueError
  else let (v, g') := draw_below G g (high - low) in Ok ((low + v)%nat, g').

(** [_initialize_centers]: [X[indices]] for the sampled indices. *)
Definition _initialize_centers (X : matrix) (n_clusters : Z) (rng : gen_state G)
  : result (matrix * gen_state G) :=
  '(indices, rng') <- rng_choice rng (length X) n_clusters ;;
  centers <- mapM (getitem X) indices ;;
  Ok (centers, rng').

(** The assignment step: [labels[i] = int(np.argmin(distances))] for
    every data state, in order; every entry of [labels] is written. *)
Definition assign_labels (data_states center_states : list statevector)
  : result (list nat) :=
  mapM (fun state =>
          distances <- mapM (fun c_state => quantum_distance state c_state)
                            center_states ;;
          argmin distances)
       data_states.

(** The update step, [for k in range(n_clusters)]: row [k] of
    [new_centers] is a resampled data point when the cluster is empty
    and the mean of its points otherwise.  [ks] is what is left of the
    range. *)
Fixpoint update_centers (X : matrix) (labels : list nat) (ks : list nat)
                        (rng : gen_state G) : result (matrix * gen_state G) :=
  match ks with
  | [] => Ok ([], rng)
  | k :: ks' =>
      let cluster_points := cluster_rows X labels k in
      '(row, rng1) <-
        (if Nat.eqb (length cluster_points) 0
         then '(i, rng') <- rng_integers rng 0 (length X) ;;
              p <- getitem X i ;;
              Ok (p, rng')
         else Ok (mean_axis0 cluster_points, rng)) ;;
      '(rows, rng2) <- update_centers X labels ks' rng1 ;;
      Ok (row :: rows, rng2)
  end.

(** The loop [for _ in range(max_iters)], [iters] iterations left. *)
Fixpoint kmeans_loop (feature_map : option QuantumCircuit) (X : matrix)
                     (n_clusters : Z) (iters : nat)
                     (labels : list nat) (centers : matrix)
                     (rng : gen_state G)
  : result (list nat * matrix * gen_state G) :=
  match iters with
  | O => Ok (labels, centers, rng)
  | S iters' =>
      data_states <- _encode_points feature_map X ;;
      center_states <- _encode_points feature_map centers ;;
      labels' <- assign_labels data_states center_states ;;
      '(new_centers, rng') <-
        update_centers X labels' (seq 0 (Z.to_nat n_clusters)) rng ;;
      if allclose new_centers centers
      then Ok (labels', new_centers, rng')
      else kmeans_loop feature_map X n_clusters iters' labels' new_centers rng'
  end.

(** [quantum_kmeans]. *)
Definition quantum_kmeans (X : matrix) (n_clusters : Z) (max_iters : Z)
    (feature_map_builder : option (unit -> result QuantumCircuit))
    (random_state : N) : result (list nat * matrix) :=
  let rng := seed_state G random_state in
  feature_map <-
    match feature_map_builder with
    | Some builder => fm <- builder tt ;; Ok (Some fm)
    | None => Ok None
    end ;;
  '(centers, rng1) <- _initialize_centers X n_clusters rng ;;
  let labels := repeat 0%nat (length X) in
  '(labels', centers', _) <-
    kmeans_loop feature_map X n_clusters (Z.to_nat max_iters) labels centers rng1 ;;
  Ok (labels', centers').

End Clustering.

(** The builders as [main.py] passes them, called without arguments:
    two qubits, and two repetitions for the ZZ map. *)
Inductive feature_map_kind : Type := Angle | ZZ.

Definition FEATURE_MAPS (kind : feature_map_kind) : unit -> result QuantumCircuit :=
  match kind with
  | Angle => fun _ => build_angle_encoding_map 2
  | ZZ => fun _ => build_zz_feature_map 2 2
  end.

(* ================================================================== *)
(** * Vocabulary of the statements *)

(** The sum of the squared moduli, without the square roots. *)
Definition norm2_sum (s : statevector) : R :=
  fold_right Rplus 0 (map Cx.norm2 s).

(** [c * state]: every amplitude times the complex number [c]. *)
Definition scale (c : Cx.C) (s : statevector) : statevector :=
  map (Cx.mul c) s.

(** The state of a register whose qubits are separately in the states
    [(a0, a1)] of the list, qubit 0 first: amplitude [k] is the product
    of the [a0] or [a1] of every qubit, by the bits of [k]. *)
Fixpoint product_rev (qs : list (Cx.C * Cx.C)) : statevector :=
  match qs with
  | [] => [Cx.one]
  | top :: rest =>
      scale (fst top) (product_rev rest) ++ scale (snd top) (product_rev rest)
  end.

Definition product_state (qs : list (Cx.C * Cx.C)) : statevector :=
  product_rev (rev qs).

(** The state [(e^{-i x/4} cos(x/2), e^{i x/4} sin(x/2))] of one qubit. *)
Definition qubit_state (x : R) : Cx.C * Cx.C :=
  ((cos (x / 4) * cos (x / 2), - (sin (x / 4) * cos (x / 2))),
   (cos (x / 4) * sin (x / 2), sin (x / 4) * sin (x / 2))).

(** The fidelity of the one-qubit states of the values [a] and [b]. *)
Definition angle_fidelity (a b : R) : R :=
  (cos ((a - b) / 4)) ^ 2 * (cos ((a - b) / 2)) ^ 2
  + (sin ((a - b) / 4)) ^ 2 * (cos ((a + b) / 2)) ^ 2.

(** The inner product of two one-qubit states. *)
Definition qubit_overlap (q p : Cx.C * Cx.C) : Cx.C :=
  Cx.add (Cx.mul (Cx.conj (fst q)) (fst p)) (Cx.mul (Cx.conj (snd q)) (snd p)).

(** The product of a list of reals. *)
Definition rprod (l : list R) : R := fold_right Rmult 1 l.

(** One component and the same component moved by [4 pi], or left as it
    is. *)
Definition shifted (a a' : R) : Prop := a' = a \/ a' = a + 4 * PI.

(** A 2x2 matrix applied to the two amplitudes of one qubit. *)
Definition mat_vec (u : mat2) (q : Cx.C * Cx.C) : Cx.C * Cx.C :=
  let '(u00, u01, u10, u11) := u in
  (row_apply u00 u01 (fst q) (snd q), row_apply u10 u11 (fst q) (snd q)).

(** The list [l] with [v] at position [i]. *)
Definition set_nth {A : Type} (i : nat) (v : A) (l : list A) : list A :=
  firstn i l ++ v :: skipn (S i) l.

(** The gates of the angle map. *)
Definition angle_gates (s len : nat) : list gate :=
  flat_map (fun i => [Gate_ry (PVar i) i; Gate_rz (PDiv (PVar i) (PConst 2)) i])
           (seq s len).

(** A 2x2 matrix that keeps the squared norm of every pair of
    amplitudes. *)
Definition isometry (u : mat2) : Prop :=
  let '(u00, u01, u10, u11) := u in
  forall a b : Cx.C,
    Cx.norm2 (row_apply u00 u01 a b) + Cx.norm2 (row_apply u10 u11 a b)
    = Cx.norm2 a + Cx.norm2 b.

(** Every gate acts on qubits of the circuit, a controlled gate on two
    different ones: what Qiskit checks when a gate is appended. *)
Definition gate_wf (n : nat) (g : gate) : Prop :=
  match g with
  | Gate_h q | Gate_ry _ q | Gate_rz _ q | Gate_p _ q => (q < n)%nat
  | Gate_cx c t => (c < n)%nat /\ (t < n)%nat /\ c <> t
  end.

Definition circuit_wf (qc : QuantumCircuit) : Prop :=
  Forall (gate_wf (num_qubits qc)) (data qc).

(** A state of the right size, for the invariants below. *)
Definition state_ok (n : nat) (st st' : statevector) : Prop :=
  length st' = (2 ^ n)%nat /\ norm2_sum st' = norm2_sum st.

(** The feature maps the program can build. *)
Inductive supported_map (fm : QuantumCircuit) : Prop :=
| supported_angle (n : nat) :
    build_angle_encoding_map n = Ok fm -> supported_map fm
| supported_zz (n reps : nat) :
    build_zz_feature_map n reps = Ok fm -> supported_map fm.

(** The two-qubit maps of [FEATURE_MAPS]. *)
Definition angle2 : QuantumCircuit :=
  mkCircuit 2 [Gate_ry (PVar 0) 0; Gate_rz (PDiv (PVar 0) (PConst 2)) 0;
               Gate_ry (PVar 1) 1; Gate_rz (PDiv (PVar 1) (PConst 2)) 1].

Definition zz22 : QuantumCircuit :=
  mkCircuit 2 (concat (repeat (zz_layer 2) 2)).

(** Every row of the matrix has [d] entries. *)
Definition rect (d : nat) (M : matrix) : Prop :=
  Forall (fun row => length row = d) M.

(** The sum of column [j] of a matrix. *)
Definition col_sum (j : nat) (pts : matrix) : R :=
  fold_right Rplus 0 (map (fun p => nth j p 0) pts).

(** Coordinate [j] of every row lies between [lo] and [hi]. *)
Definition in_range (j : nat) (lo hi : R) (M : matrix) : Prop :=
  forall row, In row M -> lo <= nth j row 0 <= hi.

(** What the loop keeps true of the labels and the centers. *)
Definition shapes (n K d : nat) (labels : list nat) (centers : matrix) : Prop :=
  length labels = n
  /\ Forall (fun l => (l < K)%nat) labels
  /\ length centers = K
  /\ rect d centers.

(** The feature map encodes every point of [d] components. *)
Definition encodes (fm : option QuantumCircuit) (d L : nat) : Prop :=
  forall row, length row = d ->
    exists st, encode_to_statevector fm row = Ok st /\ length st = L.

(** The feature-map builder, when there is one, returns a circuit. *)
Definition builder_ok (fmb : option (unit -> result QuantumCircuit)) : Prop :=
  forall builder, fmb = Some builder -> exists fm, builder tt = Ok fm.

Section UpdateVocabulary.

Variable G : Generator.

(** One pass of the [for k] loop body. *)
Definition new_center (X : matrix) (labels : list nat) (k : nat)
                      (g : gen_state G) : list R * gen_state G :=
  match cluster_rows X labels k with
  | [] => (nth (fst (draw_below G g (length X))) X [],
           snd (draw_below G g (length X)))
  | _ :: _ => (mean_axis0 (cluster_rows X labels k), g)
  end.

Fixpoint new_centers_from (X : matrix) (labels : list nat) (ks : list nat)
                          (g : gen_state G) : matrix * gen_state G :=
  match ks with
  | [] => ([], g)
  | k :: ks' =>
      let (row, g1) := new_center X labels k g in
      let (rows, g2) := new_centers_from X labels ks' g1 in
      (row :: rows, g2)
  end.


End UpdateVocabulary.

Section SameDrawsVocabulary.

Variables G1 G2 : Generator.
Variable related : gen_state G1 -> gen_state G2 -> Prop.

(** Related states give the same draws and stay related. *)
Definition draws_agree : Prop :=
  (forall g1 g2 n k, related g1 g2 ->
     fst (draw_sample G1 g1 n k) = fst (draw_sample G2 g2 n k)
     /\ related (snd (draw_sample G1 g1 n k)) (snd (draw_sample G2 g2 n k)))
  /\ (forall g1 g2 n, related g1 g2 ->
        fst (draw_below G1 g1 n) = fst (draw_below G2 g2 n)
        /\ related (snd (draw_below G1 g1 n)) (snd (draw_below G2 g2 n))).

(** Both computations raise the same exception, or both return the same
    value and leave related generators. *)
Definition same_outcome {A : Type}
           (r1 : result (A * gen_state G1)) (r2 : result (A * gen_state G2)) : Prop :=
  match r1, r2 with
  | Ok (a1, g1), Ok (a2, g2) => a1 = a2 /\ related g1 g2
  | Err e1, Err e2 => e1 = e2
  | _, _ => False
  end.

End SameDrawsVocabulary.

Arguments same_outcome {G1 G2} related {A} r1 r2.

(* ================================================================== *)
(** * A concrete random source *)

(** A small concrete generator: the state is a counter; a sample is a
    prefix of the population rotated by the counter. *)
Module CounterGen.

Definition rotate (r n : nat) : list nat :=
  skipn r (seq 0 n) ++ firstn r (seq 0 n).

Definition sample (g : N) (n k : nat) : list nat * N :=
  (firstn k (rotate (N.to_nat g mod n) n), N.succ g).

Definition below (g : N) (n : nat) : nat * N :=
  (N.to_nat g mod n, N.succ g)%nat.

Lemma rotate_perm r n : Permutation (rotate r n) (seq 0 n).
Proof.
  unfold rotate.
  rewrite <- (firstn_skipn r (seq 0 n)) at 3.
  apply Permutation_app_comm.
Qed.

Lemma sample_length g n k :
  (k <= n)%nat -> length (fst (sample g n k)) = k.
Proof.
  intros Hk. simpl.
  rewrite length_firstn, (Permutation_length (rotate_perm _ n)), length_seq.
  lia.
Qed.

Lemma rotate_NoDup r n : NoDup (rotate r n).
Proof.
  apply (Permutation_NoDup (Permutation_sym (rotate_perm r n))), seq_NoDup.
Qed.

Lemma firstn_NoDup {A : Type} (k : nat) (l : list A) :
  NoDup l -> NoDup (firstn k l).
Proof.
  intros Hl. rewrite <- (firstn_skipn k l) in Hl.
  exact (NoDup_app_remove_r _ _ Hl).
Qed.

Lemma sample_NoDup g n k : NoDup (fst (sample g n k)).
Proof. simpl. apply firstn_NoDup, rotate_NoDup. Qed.

Lemma sample_range g n k i :
  In i (fst (sample g n k)) -> (i < n)%nat.
Proof.
  simpl. intros Hi.
  assert (Hin : In i (rotate (N.to_nat g mod n) n)).
  { rewrite <- (firstn_skipn k). apply in_or_app. now left. }
  apply (Permutation_in _ (rotate_perm _ n)) in Hin.
  apply in_seq in Hin. lia.
Qed.

Lemma below_range g n : (0 < n)%nat -> (fst (below g n) < n)%nat.
Proof. intros Hn. simpl. apply Nat.mod_upper_bound. lia. Qed.

Definition gen : Generator :=
  mkGenerator N (fun s : N => s) sample below
              sample_length sample_NoDup sample_range below_range.

End CounterGen.

(* ================================================================== *)
(** * The model on small inputs *)

(** The angle map at the origin leaves the all-zero state, the state of
    [test_fidelity_self_is_one]. *)
Example encode_origin :
  encode_to_statevector (Some angle2) [0; 0]
  = Ok [Cx.one; Cx.zero; Cx.zero; Cx.zero].
Proof.
  unfold encode_to_statevector, from_instruction, angle2. simpl.
  unfold row_apply, Cx.add, Cx.mul, Cx.of_R, Cx.expi, Cx.one, Cx.zero; simpl.
  replace (0 / 2) with 0 by lra.
  replace (- (0 / 2) / 2) with 0 by lra.
  replace (0 / 2 / 2) with 0 by lra.
  replace (- 0 / 2) with 0 by lra.
  rewrite cos_0, sin_0.
  repeat (f_equal; try lra).
Qed.

(** Qubit 0 is the low bit of the index: a half turn of qubit 0 moves the
    amplitude to index 1, and the controlled-NOT from qubit 0 to qubit 1
    then moves it to index 3. *)
Example cx_after_flip :
  from_instruction (mkCircuit 2 [Gate_ry (PConst PI) 0; Gate_cx 0 1])
  = Ok [Cx.zero; Cx.zero; Cx.zero; Cx.one].
Proof.
  unfold from_instruction. simpl.
  unfold row_apply, Cx.add, Cx.mul, Cx.of_R, Cx.one, Cx.zero; simpl.
  rewrite cos_PI2, sin_PI2.
  repeat (f_equal; try lra).
Qed.

(** [np.argmin] returns the first of several least values. *)
Example argmin_first_minimum : argmin [1; 0; 0] = Ok 1%nat.
Proof.
  unfold argmin. simpl.
  repeat (destruct (Rlt_dec _ _); try lra). reflexivity.
Qed.

Example mean_two_points : mean_axis0 [[0; 2]; [2; 4]] = [1; 3].
Proof.
  unfold mean_axis0. simpl. repeat (f_equal; try lra).
Qed.

(** Orthogonal basis states are at distance 1, a state is at distance 0
    from itself. *)
Example distance_basis_states :
  quantum_distance [Cx.one; Cx.zero] [Cx.zero; Cx.one] = Ok 1
  /\ quantum_distance [Cx.one; Cx.zero] [Cx.one; Cx.zero] = Ok 0.
Proof.
  unfold quantum_distance, fidelity, vdot, bind; simpl.
  unfold Cx.abs, Cx.norm2, Cx.add, Cx.mul, Cx.conj, Cx.one, Cx.zero; simpl.
  split; f_equal.
  - replace (_ + _) with 0 by lra. rewrite sqrt_0. lra.
  - replace (_ + _) with 1 by lra. rewrite sqrt_1. lra.
Qed.

(* ================================================================== *)
(** * Properties *)

(** ** Amplitude arithmetic *)

Lemma norm2_nonneg (z : Cx.C) : 0 <= Cx.norm2 z.
Proof. destruct z as [a b]. unfold Cx.norm2; simpl. nra. Qed.

Lemma abs_sq (z : Cx.C) : (Cx.abs z) ^ 2 = Cx.norm2 z.
Proof.
  unfold Cx.abs. simpl. rewrite Rmult_1_r.
  apply sqrt_sqrt, norm2_nonneg.
Qed.

Lemma norm2_conj (z : Cx.C) : Cx.norm2 (Cx.conj z) = Cx.norm2 z.
Proof. destruct z as [a b]. unfold Cx.norm2, Cx.conj; simpl. ring. Qed.

Lemma sq_amp_sum_norm2 (s : statevector) : sq_amp_sum s = norm2_sum s.
Proof.
  unfold sq_amp_sum, norm2_sum.
  induction s as [|z s IH]; simpl in *; [reflexivity|].
  rewrite IH. f_equal.
  rewrite <- (abs_sq z). simpl. reflexivity.
Qed.

Lemma norm2_sum_nonneg (s : statevector) : 0 <= norm2_sum s.
Proof.
  unfold norm2_sum. induction s as [|z s IH]; simpl; [lra|].
  pose proof (norm2_nonneg z). lra.
Qed.

Lemma norm2_sum_app (a b : statevector) :
  norm2_sum (a ++ b) = norm2_sum a + norm2_sum b.
Proof.
  unfold norm2_sum. induction a as [|z a IH]; simpl; [lra|].
  rewrite IH. lra.
Qed.

(** ** Fidelity and distance *)

Lemma vdot_sum_conj (a b : list Cx.C) :
  vdot_sum b a = Cx.conj (vdot_sum a b).
Proof.
  revert b. induction a as [|x a IH]; intros [|y b]; simpl;
    try (unfold Cx.conj, Cx.zero; simpl; f_equal; lra).
  rewrite IH.
  destruct x as [xr xi], y as [yr yi], (vdot_sum a b) as [vr vi].
  unfold Cx.add, Cx.mul, Cx.conj; simpl. f_equal; ring.
Qed.

(** Cauchy-Schwarz for the overlap. *)
Lemma vdot_sum_bound (a b : list Cx.C) :
  Cx.norm2 (vdot_sum a b) <= norm2_sum a * norm2_sum b.
Proof.
  revert b. induction a as [|x a IH]; intros [|y b].
  - unfold Cx.norm2, norm2_sum; simpl. lra.
  - pose proof (norm2_sum_nonneg (y :: b)).
    unfold Cx.norm2 at 1. unfold norm2_sum at 1. simpl. lra.
  - pose proof (norm2_sum_nonneg (x :: a)).
    unfold Cx.norm2 at 1. unfold norm2_sum at 2. simpl. lra.
  - specialize (IH b).
    pose proof (norm2_sum_nonneg a) as HA.
    pose proof (norm2_sum_nonneg b) as HB.
    change (norm2_sum (x :: a)) with (Cx.norm2 x + norm2_sum a).
    change (norm2_sum (y :: b)) with (Cx.norm2 y + norm2_sum b).
    set (A := norm2_sum a) in *. set (B := norm2_sum b) in *.
    simpl vdot_sum.
    destruct (vdot_sum a b) as [vr vi].
    destruct x as [xr xi], y as [yr yi].
    unfold Cx.norm2, Cx.add, Cx.mul, Cx.conj in *; simpl in *.
    set (pr := xr * yr - - xi * yi).
    set (pi := xr * yi + - xi * yr).
    set (X := xr * xr + xi * xi). set (Y := yr * yr + yi * yi).
    assert (HX : 0 <= X) by (unfold X; nra).
    assert (HY : 0 <= Y) by (unfold Y; nra).
    assert (Hp : pr * pr + pi * pi = X * Y) by (unfold pr, pi, X, Y; ring).
    clearbody pr pi X Y A B.
    set (r := pr * vr + pi * vi).
    assert (Hr : r * r <= (X * Y) * (A * B)).
    { assert (Hc : r * r <= (pr * pr + pi * pi) * (vr * vr + vi * vi)).
      { unfold r. pose proof (Rle_0_sqr (pr * vi - pi * vr)) as Hq.
        unfold Rsqr in Hq. nra. }
      rewrite Hp in Hc.
      assert (0 <= X * Y) by nra.
      apply (Rle_trans _ _ _ Hc), Rmult_le_compat_l; assumption. }
    assert (Hs : 0 <= X * B + A * Y) by nra.
    assert (H4 : (2 * r) * (2 * r) <= (X * B + A * Y) * (X * B + A * Y)).
    { pose proof (Rle_0_sqr (X * B - A * Y)) as Hq. unfold Rsqr in Hq.
      replace ((2 * r) * (2 * r)) with (4 * (r * r)) by ring.
      replace ((X * B + A * Y) * (X * B + A * Y))
        with ((X * B - A * Y) * (X * B - A * Y) + 4 * ((X * Y) * (A * B)))
        by ring.
      lra. }
    assert (H2 : 2 * r <= X * B + A * Y).
    { destruct (Rle_dec (2 * r) (X * B + A * Y)) as [Hle|Hgt]; [exact Hle|].
      exfalso. apply Rnot_le_lt in Hgt.
      assert (Hm : (X * B + A * Y) * (X * B + A * Y) < (2 * r) * (2 * r)).
      { apply Rle_lt_trans with ((X * B + A * Y) * (2 * r)).
        - apply Rmult_le_compat_l; lra.
        - apply Rmult_lt_compat_r; lra. }
      lra. }
    replace ((pr + vr) * (pr + vr) + (pi + vi) * (pi + vi))
      with ((pr * pr + pi * pi) + (vr * vr + vi * vi) + 2 * r)
      by (unfold r; ring).
    rewrite Hp. clearbody r. nra.
Qed.

Lemma vdot_sum_self (s : list Cx.C) : vdot_sum s s = (norm2_sum s, 0).
Proof.
  induction s as [|[xr xi] s IH]; simpl.
  - reflexivity.
  - rewrite IH. unfold Cx.add, Cx.mul, Cx.conj, norm2_sum, Cx.norm2; simpl.
    f_equal; ring.
Qed.

(** What [fidelity] returns on arrays of one size. *)
Lemma fidelity_eq (s1 s2 : statevector) :
  length s1 = length s2 ->
  fidelity s1 s2 = Ok (Cx.norm2 (vdot_sum s1 s2)).
Proof.
  intros Hlen. unfold fidelity, vdot, bind.
  rewrite Hlen, Nat.eqb_refl. now rewrite abs_sq.
Qed.

Lemma quantum_distance_eq (s1 s2 : statevector) :
  length s1 = length s2 ->
  quantum_distance s1 s2 = Ok (1 - Cx.norm2 (vdot_sum s1 s2)).
Proof.
  intros Hlen. unfold quantum_distance. now rewrite fidelity_eq.
Qed.

(** C8.  [fidelity(s1, s2) == fidelity(s2, s1)], exactly: the two calls
    return the same value on arrays of one size (and raise the same
    exception on arrays of different sizes). *)
Theorem fidelity_symmetric (s1 s2 : statevector) :
  fidelity s1 s2 = fidelity s2 s1.
Proof.
  unfold fidelity, vdot.
  rewrite (Nat.eqb_sym (length s2) (length s1)).
  destruct (Nat.eqb (length s1) (length s2)); simpl; [|reflexivity].
  rewrite (vdot_sum_conj s1 s2).
  unfold Cx.abs. now rewrite norm2_conj.
Qed.

(** C7, as stated, fails: the functions take any array, and nothing
    normalises or clamps.  The one-amplitude array [[2]] has fidelity 16
    with itself and distance -15 from itself; and two arrays of
    different sizes give no value at all, the inner product raises. *)
Lemma fidelity_outside_unit_interval :
  fidelity [(2, 0)] [(2, 0)] = Ok 16
  /\ quantum_distance [(2, 0)] [(2, 0)] = Ok (-15)
  /\ ~ (0 <= 16 <= 1)
  /\ ~ (0 <= -15 <= 1)
  /\ fidelity [Cx.one] [Cx.one; Cx.zero] = Err ValueError.
Proof.
  assert (Hf : fidelity [(2, 0)] [(2, 0)] = Ok 16).
  { rewrite fidelity_eq by reflexivity. f_equal.
    unfold Cx.norm2, Cx.add, Cx.mul, Cx.conj, Cx.zero; simpl. lra. }
  split; [exact Hf|]. split.
  - unfold quantum_distance. rewrite Hf. cbn [bind]. f_equal. lra.
  - repeat split; try reflexivity; lra.
Qed.

(** C7, amended.  For statevectors (unit squared-amplitude sum) of one size,
    [fidelity] returns a value in [0, 1], [quantum_distance] returns one
    minus that value, again in [0, 1]; and the distance of a statevector
    to itself is 0, so within [1e-6] of 0. *)
Theorem fidelity_distance_bounds (s1 s2 : statevector) :
  sq_amp_sum s1 = 1 -> sq_amp_sum s2 = 1 -> length s1 = length s2 ->
  (exists f, fidelity s1 s2 = Ok f /\ 0 <= f <= 1 /\
             quantum_distance s1 s2 = Ok (1 - f) /\ 0 <= 1 - f <= 1)
  /\ (exists d, quantum_distance s1 s1 = Ok d /\ d = 0 /\
                isclose_atol d 0 (1 / 1000000)).
Proof.
  intros H1 H2 Hlen. rewrite sq_amp_sum_norm2 in H1, H2.
  split.
  - exists (Cx.norm2 (vdot_sum s1 s2)).
    pose proof (vdot_sum_bound s1 s2) as Hb. rewrite H1, H2 in Hb.
    pose proof (norm2_nonneg (vdot_sum s1 s2)) as Hn.
    rewrite fidelity_eq, quantum_distance_eq by assumption.
    repeat split; lra.
  - exists 0. rewrite quantum_distance_eq by reflexivity.
    rewrite vdot_sum_self, H1. unfold Cx.norm2; simpl.
    repeat split.
    + f_equal. ring.
    + unfold isclose_atol. rewrite Rminus_diag, Rabs_R0. lra.
Qed.

(** The basis states [|0>] and [|1>] of one qubit. *)
Lemma fidelity_distance_bounds_witness :
  (exists f, fidelity [Cx.one; Cx.zero] [Cx.zero; Cx.one] = Ok f /\ 0 <= f <= 1 /\
             quantum_distance [Cx.one; Cx.zero] [Cx.zero; Cx.one] = Ok (1 - f) /\
             0 <= 1 - f <= 1)
  /\ (exists d, quantum_distance [Cx.one; Cx.zero] [Cx.one; Cx.zero] = Ok d /\ d = 0 /\
                isclose_atol d 0 (1 / 1000000)).
Proof.
  apply (fidelity_distance_bounds [Cx.one; Cx.zero] [Cx.zero; Cx.one]).
  - rewrite sq_amp_sum_norm2. unfold norm2_sum, Cx.norm2; simpl. lra.
  - rewrite sq_amp_sum_norm2. unfold norm2_sum, Cx.norm2; simpl. lra.
  - reflexivity.
Defined.

(** ** The simulator keeps the size and the norm of a state *)

Lemma inv_sqrt2_sq : / sqrt 2 * / sqrt 2 = / 2.
Proof.
  rewrite <- Rinv_mult. f_equal. apply sqrt_sqrt. lra.
Qed.

Lemma cos_sin_sq (t : R) : cos t * cos t + sin t * sin t = 1.
Proof.
  pose proof (sin2_cos2 t) as Ht. unfold Rsqr in Ht. lra.
Qed.

Lemma isometry_h : isometry mat_h.
Proof.
  intros [ar ai] [br bi].
  unfold row_apply, Cx.norm2, Cx.add, Cx.mul, Cx.of_R; simpl.
  pose proof inv_sqrt2_sq as Hs. set (s := / sqrt 2) in *. clearbody s.
  replace ((s * ar - 0 * ai + (s * br - 0 * bi)) * (s * ar - 0 * ai + (s * br - 0 * bi))
           + (s * ai + 0 * ar + (s * bi + 0 * br)) * (s * ai + 0 * ar + (s * bi + 0 * br))
           + ((s * ar - 0 * ai + (- s * br - 0 * bi)) * (s * ar - 0 * ai + (- s * br - 0 * bi))
              + (s * ai + 0 * ar + (- s * bi + 0 * br)) * (s * ai + 0 * ar + (- s * bi + 0 * br))))
    with (2 * (s * s) * (ar * ar + ai * ai + (br * br + bi * bi))) by ring.
  rewrite Hs. field.
Qed.

Lemma isometry_ry (theta : R) : isometry (mat_ry theta).
Proof.
  intros [ar ai] [br bi].
  unfold row_apply, Cx.norm2, Cx.add, Cx.mul, Cx.of_R; simpl.
  pose proof (cos_sin_sq (theta / 2)) as Hcs.
  set (c := cos (theta / 2)) in *. set (s := sin (theta / 2)) in *.
  clearbody c s.
  match goal with
  | |- ?lhs = _ =>
      replace lhs with ((c * c + s * s) * (ar * ar + ai * ai + (br * br + bi * bi)))
        by ring
  end.
  rewrite Hcs. ring.
Qed.

Lemma isometry_diag (s t : R) :
  isometry (Cx.expi s, Cx.zero, Cx.zero, Cx.expi t).
Proof.
  intros [ar ai] [br bi].
  unfold row_apply, Cx.norm2, Cx.add, Cx.mul, Cx.expi, Cx.zero; simpl.
  pose proof (cos_sin_sq s) as Hs. pose proof (cos_sin_sq t) as Ht.
  set (cs := cos s) in *. set (ss := sin s) in *.
  set (ct := cos t) in *. set (st := sin t) in *.
  clearbody cs ss ct st.
  match goal with
  | |- ?lhs = _ =>
      replace lhs with ((cs * cs + ss * ss) * (ar * ar + ai * ai)
                        + (ct * ct + st * st) * (br * br + bi * bi))
        by ring
  end.
  rewrite Hs, Ht. ring.
Qed.

Lemma isometry_rz (phi : R) : isometry (mat_rz phi).
Proof. apply isometry_diag. Qed.

Lemma isometry_p (lam : R) : isometry (mat_p lam).
Proof.
  unfold mat_p.
  replace Cx.one with (Cx.expi 0)
    by (unfold Cx.expi, Cx.one; now rewrite cos_0, sin_0).
  apply isometry_diag.
Qed.

Lemma isometry_x : isometry mat_x.
Proof.
  intros [ar ai] [br bi].
  unfold row_apply, Cx.norm2, Cx.add, Cx.mul, Cx.one, Cx.zero; simpl. ring.
Qed.

Lemma pow2_pos (m : nat) : (0 < 2 ^ m)%nat.
Proof. induction m; simpl; lia. Qed.

(** The two halves of a state over [S m] qubits. *)
Lemma halves (m : nat) (st : statevector) :
  length st = (2 ^ S m)%nat ->
  st = firstn (2 ^ m) st ++ skipn (2 ^ m) st
  /\ length (firstn (2 ^ m) st) = (2 ^ m)%nat
  /\ length (skipn (2 ^ m) st) = (2 ^ m)%nat
  /\ norm2_sum st
     = norm2_sum (firstn (2 ^ m) st) + norm2_sum (skipn (2 ^ m) st).
Proof.
  intros Hlen. simpl in Hlen.
  rewrite <- norm2_sum_app.
  rewrite firstn_skipn, length_firstn, length_skipn.
  repeat split; lia.
Qed.

Lemma length_zip_with {A B D : Type} (f : A -> B -> D) (a : list A) (b : list B) :
  length a = length b -> length (zip_with f a b) = length a.
Proof.
  revert b. induction a as [|x a IH]; intros [|y b] Hlen; simpl in *;
    try discriminate; [reflexivity|].
  f_equal. apply IH. lia.
Qed.

Lemma norm2_zip_rows (u00 u01 u10 u11 : Cx.C) (lo hi : statevector) :
  isometry (u00, u01, u10, u11) ->
  length lo = length hi ->
  norm2_sum (zip_with (row_apply u00 u01) lo hi)
  + norm2_sum (zip_with (row_apply u10 u11) lo hi)
  = norm2_sum lo + norm2_sum hi.
Proof.
  intros Hu. revert hi.
  induction lo as [|a lo IH]; intros [|b hi] Hlen; simpl in *;
    try discriminate.
  - unfold norm2_sum; simpl. lra.
  - specialize (IH hi ltac:(lia)). specialize (Hu a b).
    unfold norm2_sum in *; simpl in *. lra.
Qed.

Lemma apply1_spec (u : mat2) (n q : nat) :
  isometry u ->
  forall st, length st = (2 ^ n)%nat ->
    length (apply1 u n q st) = (2 ^ n)%nat
    /\ norm2_sum (apply1 u n q st) = norm2_sum st.
Proof.
  intros Hu. induction n as [|m IH]; intros st Hlen.
  - simpl. auto.
  - destruct (halves m st Hlen) as (_ & Hlo & Hhi & Hn).
    cbn [apply1]. destruct u as [[[u00 u01] u10] u11].
    rewrite Hn.
    destruct (Nat.eqb q m).
    + rewrite length_app, !length_zip_with by congruence.
      rewrite norm2_sum_app, norm2_zip_rows by (assumption || congruence).
      split; [simpl; lia | reflexivity].
    + destruct (IH _ Hlo) as [L1 N1], (IH _ Hhi) as [L2 N2].
      rewrite length_app, norm2_sum_app, L1, L2, N1, N2.
      split; [simpl; lia | reflexivity].
Qed.

Lemma select_spec (m c : nat) :
  forall a b, length a = (2 ^ m)%nat -> length b = (2 ^ m)%nat ->
    length (select m c a b) = (2 ^ m)%nat
    /\ norm2_sum (select m c a b) + norm2_sum (select m c b a)
       = norm2_sum a + norm2_sum b.
Proof.
  induction m as [|p IH]; intros a b Ha Hb.
  - simpl. split; [assumption | lra].
  - destruct (halves p a Ha) as (_ & Hal & Hah & Na).
    destruct (halves p b Hb) as (_ & Hbl & Hbh & Nb).
    cbn [select]. rewrite Na, Nb.
    destruct (Nat.eqb c p).
    + rewrite length_app, !norm2_sum_app. split; [simpl; lia | lra].
    + destruct (IH _ _ Hal Hbl) as [L1 N1], (IH _ _ Hah Hbh) as [L2 N2].
      rewrite length_app, !norm2_sum_app, L1, L2. split; [simpl; lia | lra].
Qed.

Lemma apply_cx_spec (n c t : nat) :
  forall st, length st = (2 ^ n)%nat ->
    length (apply_cx n c t st) = (2 ^ n)%nat
    /\ norm2_sum (apply_cx n c t st) = norm2_sum st.
Proof.
  induction n as [|m IH]; intros st Hlen.
  - simpl. auto.
  - destruct (halves m st Hlen) as (_ & Hlo & Hhi & Hn).
    cbn [apply_cx]. rewrite Hn.
    destruct (Nat.eqb c m); [|destruct (Nat.eqb t m)].
    + destruct (apply1_spec mat_x m t isometry_x _ Hhi) as [L N].
      rewrite length_app, norm2_sum_app, L, N, Hlo.
      split; [simpl; lia | reflexivity].
    + destruct (select_spec m c _ _ Hlo Hhi) as [L1 N1].
      destruct (select_spec m c _ _ Hhi Hlo) as [L2 _].
      rewrite length_app, norm2_sum_app, L1, L2.
      split; [simpl; lia | lra].
    + destruct (IH _ Hlo) as [L1 N1], (IH _ Hhi) as [L2 N2].
      rewrite length_app, norm2_sum_app, L1, L2, N1, N2.
      split; [simpl; lia | reflexivity].
Qed.

Lemma zero_state_spec (n : nat) :
  length (zero_state n) = (2 ^ n)%nat /\ norm2_sum (zero_state n) = 1.
Proof.
  unfold zero_state. split.
  - simpl. rewrite repeat_length. pose proof (pow2_pos n). lia.
  - unfold norm2_sum. simpl.
    assert (Hz : forall k, fold_right Rplus 0 (map Cx.norm2 (repeat Cx.zero k)) = 0).
    { induction k as [|k IHk]; simpl; [reflexivity|].
      rewrite IHk. unfold Cx.norm2, Cx.zero; simpl. lra. }
    rewrite Hz. unfold Cx.norm2, Cx.one; simpl. lra.
Qed.

(** ** Well-formed circuits and the outcome of a simulation *)

Lemma pexpr_value_cases (e : pexpr) :
  (pexpr_vars e = [] /\ exists v, pexpr_value e = Ok v)
  \/ (pexpr_vars e <> [] /\ pexpr_value e = Err UnboundParameter).
Proof.
  induction e as [r|i|a IHa b IHb|a IHa b IHb|a IHa b IHb]; simpl.
  - left. eauto.
  - right. split; [discriminate | reflexivity].
  - destruct IHa as [[Va [va Ea]]|[Va Ea]]; rewrite Ea; simpl.
    + rewrite Va. simpl.
      destruct IHb as [[Vb [vb Eb]]|[Vb Eb]]; rewrite Eb; simpl; eauto.
    + right. split; [|reflexivity].
      destruct (pexpr_vars a); [congruence | discriminate].
  - destruct IHa as [[Va [va Ea]]|[Va Ea]]; rewrite Ea; simpl.
    + rewrite Va. simpl.
      destruct IHb as [[Vb [vb Eb]]|[Vb Eb]]; rewrite Eb; simpl; eauto.
    + right. split; [|reflexivity].
      destruct (pexpr_vars a); [congruence | discriminate].
  - destruct IHa as [[Va [va Ea]]|[Va Ea]]; rewrite Ea; simpl.
    + rewrite Va. simpl.
      destruct IHb as [[Vb [vb Eb]]|[Vb Eb]]; rewrite Eb; simpl; eauto.
    + right. split; [|reflexivity].
      destruct (pexpr_vars a); [congruence | discriminate].
Qed.

Lemma check_qubit_ok (n q : nat) : (q < n)%nat -> check_qubit n q = Ok tt.
Proof.
  intros Hq. unfold check_qubit.
  destruct (Nat.ltb_spec q n); [reflexivity | lia].
Qed.

Lemma apply_gate_cases (n : nat) (g : gate) (st : statevector) :
  gate_wf n g -> length st = (2 ^ n)%nat ->
  (gate_vars g = [] /\ exists st', apply_gate n g st = Ok st' /\ state_ok n st st')
  \/ (gate_vars g <> [] /\ apply_gate n g st = Err UnboundParameter).
Proof.
  intros Hwf Hlen. unfold state_ok.
  destruct g as [q|e q|e q|e q|c t]; simpl in *.
  - left. split; [reflexivity|]. rewrite check_qubit_ok by assumption. simpl.
    eexists. split; [reflexivity|]. apply apply1_spec; [apply isometry_h | assumption].
  - rewrite check_qubit_ok by assumption. simpl.
    destruct (pexpr_value_cases e) as [[V [v E]]|[V E]]; rewrite E; simpl;
      [left|right; auto].
    split; [assumption|]. eexists. split; [reflexivity|].
    apply apply1_spec; [apply isometry_ry | assumption].
  - rewrite check_qubit_ok by assumption. simpl.
    destruct (pexpr_value_cases e) as [[V [v E]]|[V E]]; rewrite E; simpl;
      [left|right; auto].
    split; [assumption|]. eexists. split; [reflexivity|].
    apply apply1_spec; [apply isometry_rz | assumption].
  - rewrite check_qubit_ok by assumption. simpl.
    destruct (pexpr_value_cases e) as [[V [v E]]|[V E]]; rewrite E; simpl;
      [left|right; auto].
    split; [assumption|]. eexists. split; [reflexivity|].
    apply apply1_spec; [apply isometry_p | assumption].
  - destruct Hwf as (Hc & Ht & Hne).
    left. split; [reflexivity|]. rewrite !check_qubit_ok by assumption. simpl.
    destruct (Nat.eqb_spec c t) as [->|_]; [congruence|].
    eexists. split; [reflexivity|]. now apply apply_cx_spec.
Qed.

Lemma run_gates_cases (n : nat) (gs : list gate) :
  Forall (gate_wf n) gs ->
  forall st, length st = (2 ^ n)%nat ->
  (flat_map gate_vars gs = []
   /\ exists st', run_gates n gs st = Ok st' /\ state_ok n st st')
  \/ (flat_map gate_vars gs <> [] /\ run_gates n gs st = Err UnboundParameter).
Proof.
  induction 1 as [|g gs Hg Hgs IH]; intros st Hlen; simpl.
  - left. split; [reflexivity|]. exists st. unfold state_ok. auto.
  - destruct (apply_gate_cases n g st Hg Hlen) as [[V (st1 & E & L1 & N1)]|[V E]];
      rewrite E; simpl.
    + rewrite V. simpl.
      destruct (IH st1 L1) as [[V' (st2 & E' & L2 & N2)]|[V' E']]; [left|right; auto].
      split; [assumption|]. exists st2. unfold state_ok.
      repeat split; congruence.
    + right. split; [|reflexivity].
      destruct (gate_vars g); [congruence | discriminate].
Qed.

(** ** Binding a point to the parameters *)

Lemma pexpr_vars_bind (d : binding) (e : pexpr) (i : nat) :
  In i (pexpr_vars (pexpr_bind d e)) <-> In i (pexpr_vars e) /\ lookup i d = None.
Proof.
  induction e as [r|j|a IHa b IHb|a IHa b IHb|a IHa b IHb]; simpl;
    try (rewrite !in_app_iff, IHa, IHb; tauto).
  - tauto.
  - destruct (lookup j d) eqn:Hj; simpl.
    + split; [tauto|]. intros [[->|[]] Hn]. congruence.
    + split.
      * intros [->|[]]. auto.
      * tauto.
Qed.

Lemma gates_vars_bind (d : binding) (gs : list gate) (i : nat) :
  In i (flat_map gate_vars (map (gate_bind d) gs))
  <-> In i (flat_map gate_vars gs) /\ lookup i d = None.
Proof.
  induction gs as [|g gs IH]; simpl; [tauto|].
  rewrite !in_app_iff, IH.
  assert (Hg : In i (gate_vars (gate_bind d g)) <-> In i (gate_vars g) /\ lookup i d = None).
  { destruct g; simpl; try apply pexpr_vars_bind; tauto. }
  tauto.
Qed.

Lemma gate_bind_wf (n : nat) (d : binding) (gs : list gate) :
  Forall (gate_wf n) gs -> Forall (gate_wf n) (map (gate_bind d) gs).
Proof.
  induction 1 as [|g gs Hg _ IH]; simpl; constructor; [|assumption].
  destruct g; assumption.
Qed.

Lemma lookup_combine_full (ps : list nat) (xs : list R) (i : nat) :
  In i ps -> (length ps <= length xs)%nat -> lookup i (combine ps xs) <> None.
Proof.
  revert xs. induction ps as [|p ps IH]; intros [|x xs] Hin Hlen; simpl in *;
    try tauto; try lia.
  destruct (Nat.eqb_spec i p) as [_|Hne]; [discriminate|].
  destruct Hin as [->|Hin]; [congruence|]. apply IH; [assumption | lia].
Qed.

Lemma lookup_combine_short (ps : list nat) (xs : list R) :
  NoDup ps -> (length xs < length ps)%nat ->
  exists p, In p ps /\ lookup p (combine ps xs) = None.
Proof.
  intros Hnd. revert xs.
  induction Hnd as [|p ps Hp Hnd IH]; intros xs Hlen; simpl in *; [lia|].
  destruct xs as [|x xs].
  - exists p. auto.
  - destruct (IH xs ltac:(simpl in Hlen; lia)) as (q & Hq & Hl).
    exists q. split; [auto|]. simpl.
    destruct (Nat.eqb_spec q p) as [->|_]; [contradiction | assumption].
Qed.

Lemma parameters_In (qc : QuantumCircuit) (i : nat) :
  In i (parameters qc) <-> In i (circuit_vars qc).
Proof.
  unfold parameters. rewrite filter_In, existsb_exists, in_seq. split.
  - intros (_ & j & Hj & E). apply Nat.eqb_eq in E. now subst.
  - intros Hi. split.
    + assert (Hm : Forall (fun k => (k <= list_max (circuit_vars qc))%nat) (circuit_vars qc))
        by (now apply list_max_le).
      rewrite Forall_forall in Hm. specialize (Hm i Hi). lia.
    + exists i. split; [assumption | apply Nat.eqb_refl].
Qed.

Lemma parameters_NoDup (qc : QuantumCircuit) : NoDup (parameters qc).
Proof. apply NoDup_filter, seq_NoDup. Qed.

(** The outcome of [encode_to_statevector] on a well-formed circuit: a
    point with a value for every parameter gives a state of [2^q]
    amplitudes and unit norm; a shorter point leaves a parameter free
    and the simulation raises. *)
Lemma encode_enough (fm : QuantumCircuit) (x : list R) :
  circuit_wf fm -> (length (parameters fm) <= length x)%nat ->
  exists st, encode_to_statevector (Some fm) x = Ok st
             /\ length st = (2 ^ num_qubits fm)%nat
             /\ sq_amp_sum st = 1.
Proof.
  intros Hwf Hlen. unfold encode_to_statevector, from_instruction. simpl.
  destruct (zero_state_spec (num_qubits fm)) as [L0 N0].
  destruct (run_gates_cases (num_qubits fm)
              (map (gate_bind (combine (parameters fm) x)) (data fm))
              (gate_bind_wf _ _ _ Hwf) _ L0)
    as [[_ (st & E & L & N)]|[V _]].
  - rewrite E. simpl. exists st. rewrite sq_amp_sum_norm2.
    repeat split; congruence.
  - exfalso. apply V.
    destruct (flat_map gate_vars _) as [|i l] eqn:Hv; [reflexivity|].
    assert (Hi : In i (i :: l)) by (now left). rewrite <- Hv in Hi.
    apply gates_vars_bind in Hi. destruct Hi as [Hi Hnone].
    apply (parameters_In fm) in Hi.
    now apply (lookup_combine_full _ x _ Hi) in Hlen.
Qed.

Lemma encode_short (fm : QuantumCircuit) (x : list R) :
  circuit_wf fm -> (length x < length (parameters fm))%nat ->
  encode_to_statevector (Some fm) x = Err UnboundParameter.
Proof.
  intros Hwf Hlen. unfold encode_to_statevector, from_instruction. simpl.
  destruct (zero_state_spec (num_qubits fm)) as [L0 N0].
  destruct (run_gates_cases (num_qubits fm)
              (map (gate_bind (combine (parameters fm) x)) (data fm))
              (gate_bind_wf _ _ _ Hwf) _ L0)
    as [[V _]|[_ E]].
  - exfalso.
    destruct (lookup_combine_short _ x (parameters_NoDup fm) Hlen) as (p & Hp & Hl).
    apply parameters_In in Hp.
    assert (Hin : In p (flat_map gate_vars
                          (map (gate_bind (combine (parameters fm) x)) (data fm))))
      by (apply gates_vars_bind; auto).
    rewrite V in Hin. contradiction.
  - now rewrite E.
Qed.

(** ** The two builders give well-formed circuits *)

Lemma angle_wf (n : nat) (fm : QuantumCircuit) :
  build_angle_encoding_map n = Ok fm -> circuit_wf fm.
Proof.
  intros E. injection E as <-. unfold circuit_wf. simpl.
  apply Forall_forall. intros g Hg.
  apply in_flat_map in Hg. destruct Hg as (i & Hi & Hg).
  apply in_seq in Hi.
  destruct Hg as [<-|[<-|[]]]; simpl; lia.
Qed.

Lemma entangler_pairs_spec (n i j : nat) :
  In (i, j) (entangler_pairs n) -> (i < j)%nat /\ (j < n)%nat.
Proof.
  unfold entangler_pairs. intros H.
  apply in_flat_map in H. destruct H as (a & Ha & H).
  apply in_map_iff in H. destruct H as (b & E & Hb).
  injection E as -> ->. apply in_seq in Ha, Hb. lia.
Qed.

Lemma zz_layer_wf (n : nat) : Forall (gate_wf n) (zz_layer n).
Proof.
  unfold zz_layer. rewrite !Forall_app. repeat split.
  - apply Forall_forall. intros g Hg. apply in_map_iff in Hg.
    destruct Hg as (i & <- & Hi). apply in_seq in Hi. simpl. lia.
  - apply Forall_forall. intros g Hg. apply in_map_iff in Hg.
    destruct Hg as (i & <- & Hi). apply in_seq in Hi. simpl. lia.
  - apply Forall_forall. intros g Hg. apply in_flat_map in Hg.
    destruct Hg as ([i j] & Hp & Hg). apply entangler_pairs_spec in Hp.
    destruct Hg as [<-|[<-|[<-|[]]]]; simpl; lia.
Qed.

Lemma zz_wf (n reps : nat) (fm : QuantumCircuit) :
  build_zz_feature_map n reps = Ok fm -> circuit_wf fm.
Proof.
  unfold build_zz_feature_map, ZZFeatureMap.
  destruct (n <? 2)%nat; [discriminate|].
  intros E. injection E as <-. unfold circuit_wf. simpl.
  induction reps as [|r IH]; simpl; [constructor|].
  apply Forall_app. split; [apply zz_layer_wf | exact IH].
Qed.

Lemma supported_wf (fm : QuantumCircuit) : supported_map fm -> circuit_wf fm.
Proof. intros [n E|n reps E]; [exact (angle_wf n fm E) | exact (zz_wf n reps fm E)]. Qed.

Lemma angle2_built : build_angle_encoding_map 2 = Ok angle2.
Proof. reflexivity. Qed.

Lemma angle2_parameters : parameters angle2 = [0; 1]%nat.
Proof. reflexivity. Qed.

(** ** Claims about [encode_to_statevector] *)

(** C2.  For a supported feature map (angle encoding or the ZZ map, any
    number of qubits and repetitions) and a point with one value per free
    parameter, [encode_to_statevector] returns a statevector whose
    squared-amplitude sum is 1, hence within [1e-6] of 1. *)
Theorem encode_unit_norm (fm : QuantumCircuit) (x : list R) :
  supported_map fm ->
  length x = length (parameters fm) ->
  exists st, encode_to_statevector (Some fm) x = Ok st
             /\ sq_amp_sum st = 1
             /\ isclose_atol (sq_amp_sum st) 1 (1 / 1000000).
Proof.
  intros Hs Hlen.
  destruct (encode_enough fm x (supported_wf fm Hs)) as (st & E & _ & N); [lia|].
  exists st. repeat split; try assumption.
  unfold isclose_atol. rewrite N, Rminus_diag, Rabs_R0, Rabs_R1. lra.
Qed.

(** The point of [test_angle_encoding_state_normalized]. *)
Lemma encode_unit_norm_witness :
  exists st, encode_to_statevector (Some angle2) [1 / 10; - (2 / 10)] = Ok st
             /\ sq_amp_sum st = 1
             /\ isclose_atol (sq_amp_sum st) 1 (1 / 1000000).
Proof.
  apply (encode_unit_norm angle2 [1 / 10; - (2 / 10)]).
  - exact (supported_angle angle2 2 angle2_built).
  - reflexivity.
Defined.

(** C5, as stated, fails: a point of three components is encoded by the
    two-parameter angle map without any exception. *)
Lemma encode_accepts_longer_point :
  length [0; 0; 0] <> length (parameters angle2)
  /\ ~ fails (encode_to_statevector (Some angle2) [0; 0; 0]).
Proof.
  split.
  - rewrite angle2_parameters. discriminate.
  - intros [e He].
    destruct (encode_enough angle2 [0; 0; 0]) as (st & E & _).
    + exact (angle_wf 2 angle2 angle2_built).
    + rewrite angle2_parameters. simpl. lia.
    + congruence.
Qed.

(** C5, amended.  On a well-formed feature map, [encode_to_statevector]
    fails exactly when the point has fewer components than the map has
    free parameters, and then with the simulator's unbound-parameter
    error; a point with at least as many components is encoded. *)
Theorem encode_fails_iff_short (fm : QuantumCircuit) (x : list R) :
  circuit_wf fm ->
  (fails (encode_to_statevector (Some fm) x)
   <-> (length x < length (parameters fm))%nat)
  /\ ((length x < length (parameters fm))%nat ->
      encode_to_statevector (Some fm) x = Err UnboundParameter).
Proof.
  intros Hwf. split; [split|].
  - intros [e He].
    destruct (Nat.lt_ge_cases (length x) (length (parameters fm))) as [Hlt|Hge];
      [assumption|].
    destruct (encode_enough fm x Hwf Hge) as (st & E & _). congruence.
  - intros Hlt. exists UnboundParameter. now apply encode_short.
  - now apply encode_short.
Qed.

Lemma encode_fails_iff_short_witness :
  (fails (encode_to_statevector (Some angle2) [1])
   <-> (length [1] < length (parameters angle2))%nat)
  /\ ((length [1] < length (parameters angle2))%nat ->
      encode_to_statevector (Some angle2) [1] = Err UnboundParameter).
Proof.
  apply (encode_fails_iff_short angle2 [1]).
  exact (angle_wf 2 angle2 angle2_built).
Defined.

(** C9.  A point with more components than the feature map has free
    parameters is encoded without an exception, and the result is the
    statevector of its first [number of free parameters] components. *)
Theorem encode_ignores_surplus (fm : QuantumCircuit) (x : list R) :
  circuit_wf fm ->
  (length (parameters fm) < length x)%nat ->
  exists st,
    encode_to_statevector (Some fm) x = Ok st
    /\ encode_to_statevector (Some fm) (firstn (length (parameters fm)) x) = Ok st.
Proof.
  intros Hwf Hlen.
  destruct (encode_enough fm x Hwf) as (st & E & _); [lia|].
  exists st. split; [assumption|].
  rewrite <- E. unfold encode_to_statevector.
  now rewrite <- combine_firstn_l.
Qed.

Lemma encode_ignores_surplus_witness :
  exists st,
    encode_to_statevector (Some angle2) [1; 2; 3] = Ok st
    /\ encode_to_statevector (Some angle2)
         (firstn (length (parameters angle2)) [1; 2; 3]) = Ok st.
Proof.
  apply (encode_ignores_surplus angle2 [1; 2; 3]).
  - exact (angle_wf 2 angle2 angle2_built).
  - rewrite angle2_parameters. simpl. lia.
Defined.

(** ** The clustering loop: building blocks *)

Lemma mapM_exists {A B : Type} (f : A -> result B) (P : B -> Prop) (l : list A) :
  (forall a, In a l -> exists b, f a = Ok b /\ P b) ->
  exists bs, mapM f l = Ok bs /\ length bs = length l /\ Forall P bs.
Proof.
  induction l as [|a l IH]; intros H; simpl.
  - exists []. auto.
  - destruct (H a (or_introl eq_refl)) as (b & Eb & Pb).
    destruct IH as (bs & Ebs & Lbs & Pbs); [intros; apply H; now right|].
    rewrite Eb, Ebs. simpl. exists (b :: bs). simpl. auto.
Qed.

Lemma mapM_map {A B : Type} (f : A -> result B) (h : A -> B) (l : list A) :
  (forall a, In a l -> f a = Ok (h a)) -> mapM f l = Ok (map h l).
Proof.
  induction l as [|a l IH]; intros H; simpl; [reflexivity|].
  rewrite (H a (or_introl eq_refl)), IH by (intros; apply H; now right).
  reflexivity.
Qed.

Lemma getitem_nth {A : Type} (a : list A) (i : nat) (dflt : A) :
  (i < length a)%nat -> getitem a i = Ok (nth i a dflt).
Proof.
  intros Hi. unfold getitem. now rewrite (nth_error_nth' a dflt Hi).
Qed.

(** *** Initial centers *)

Section ClusteringFacts.

Variable G : Generator.

Lemma initialize_centers_ok (X : matrix) (k : Z) (g : gen_state G) :
  (0 <= k <= Z.of_nat (length X))%Z ->
  _initialize_centers G X k g
  = Ok (map (fun i => nth i X []) (fst (draw_sample G g (length X) (Z.to_nat k))),
        snd (draw_sample G g (length X) (Z.to_nat k))).
Proof.
  intros Hk. unfold _initialize_centers, rng_choice.
  destruct (Z.ltb_spec k 0); [lia|].
  destruct (Z.ltb_spec (Z.of_nat (length X)) k); [lia|].
  simpl.
  pose proof (draw_sample_range G g (length X) (Z.to_nat k)) as Hr.
  destruct (draw_sample G g (length X) (Z.to_nat k)) as [idx g']. simpl in *.
  rewrite (mapM_map (getitem X) (fun i => nth i X [])).
  - reflexivity.
  - intros i Hi. apply getitem_nth, Hr, Hi.
Qed.

Lemma initialize_centers_large (X : matrix) (k : Z) (g : gen_state G) :
  (Z.of_nat (length X) < k)%Z -> _initialize_centers G X k g = Err ValueError.
Proof.
  intros Hk. unfold _initialize_centers, rng_choice.
  destruct (Z.ltb_spec k 0); [reflexivity|].
  destruct (Z.ltb_spec (Z.of_nat (length X)) k); [reflexivity | lia].
Qed.

Lemma initialize_centers_negative (X : matrix) (k : Z) (g : gen_state G) :
  (k < 0)%Z -> _initialize_centers G X k g = Err ValueError.
Proof.
  intros Hk. unfold _initialize_centers, rng_choice.
  destruct (Z.ltb_spec k 0); [reflexivity | lia].
Qed.

(** *** The assignment step *)

Lemma argmin_from_bound (l : list R) :
  forall bi b i, (bi < i)%nat ->
    (argmin_from bi b i l < i + length l)%nat.
Proof.
  induction l as [|v l IH]; intros bi b i Hbi; simpl; [lia|].
  destruct (Rlt_dec v b).
  - specialize (IH i v (S i) ltac:(lia)). lia.
  - specialize (IH bi b (S i) ltac:(lia)). lia.
Qed.

Lemma argmin_ok (l : list R) :
  l <> [] -> exists i, argmin l = Ok i /\ (i < length l)%nat.
Proof.
  destruct l as [|v l]; [congruence|]. intros _. simpl.
  eexists. split; [reflexivity|].
  pose proof (argmin_from_bound l 0%nat v 1%nat ltac:(lia)). lia.
Qed.

Lemma assign_labels_ok (L : nat) (data_states center_states : list statevector) :
  center_states <> [] ->
  Forall (fun s => length s = L) data_states ->
  Forall (fun s => length s = L) center_states ->
  exists labels,
    assign_labels data_states center_states = Ok labels
    /\ length labels = length data_states
    /\ Forall (fun l => (l < length center_states)%nat) labels.
Proof.
  intros Hne Hd Hc. unfold assign_labels.
  apply mapM_exists. intros state Hs.
  rewrite Forall_forall in Hd, Hc.
  rewrite (mapM_map _ (fun c => 1 - Cx.norm2 (vdot_sum state c))).
  - simpl.
    destruct (argmin_ok (map (fun c => 1 - Cx.norm2 (vdot_sum state c)) center_states))
      as (i & Ei & Hi).
    + destruct center_states; [congruence | discriminate].
    + exists i. rewrite length_map in Hi. auto.
  - intros c Hin. apply quantum_distance_eq.
    rewrite (Hd _ Hs), (Hc _ Hin). reflexivity.
Qed.

(** *** The update step *)

Lemma cluster_rows_In (X : matrix) (labels : list nat) (k : nat) (row : list R) :
  In row (cluster_rows X labels k) -> In row X.
Proof.
  unfold cluster_rows. intros H.
  apply in_map_iff in H. destruct H as ([r l] & <- & H).
  apply filter_In in H. destruct H as [H _].
  now apply in_combine_l in H.
Qed.

Lemma length_zip_with_same {A : Type} (f : A -> A -> A) (a b : list A) (d : nat) :
  length a = d -> length b = d -> length (zip_with f a b) = d.
Proof.
  intros Ha Hb. rewrite length_zip_with; congruence.
Qed.

Lemma fold_vec_add_length (d : nat) (ps : matrix) :
  rect d ps ->
  forall p, length p = d -> length (fold_left vec_add ps p) = d.
Proof.
  induction 1 as [|q ps Hq _ IH]; intros p Hp; simpl.
  - assumption.
  - apply IH. unfold vec_add. now apply length_zip_with_same.
Qed.

Lemma col_sums_length (d : nat) (pts : matrix) :
  pts <> [] -> rect d pts -> length (col_sums pts) = d.
Proof.
  destruct pts as [|p ps]; [congruence|]. intros _ H.
  apply Forall_cons_iff in H. destruct H as [Hp Hps].
  simpl. now apply fold_vec_add_length.
Qed.

Lemma mean_axis0_length (d : nat) (pts : matrix) :
  pts <> [] -> rect d pts -> length (mean_axis0 pts) = d.
Proof.
  intros Hne H. unfold mean_axis0. rewrite length_map.
  now apply col_sums_length.
Qed.

Lemma rng_integers_ok (g : gen_state G) (n : nat) :
  (0 < n)%nat ->
  rng_integers G g 0 n
  = Ok (fst (draw_below G g n), snd (draw_below G g n)).
Proof.
  intros Hn. unfold rng_integers.
  destruct (Nat.leb_spec n 0); [lia|].
  rewrite Nat.sub_0_r. destruct (draw_below G g n). reflexivity.
Qed.

(** On a non-empty dataset the update step cannot raise. *)
Lemma update_centers_total (X : matrix) (labels : list nat) (ks : list nat) :
  X <> [] ->
  forall g, update_centers G X labels ks g = Ok (new_centers_from G X labels ks g).
Proof.
  intros HX. induction ks as [|k ks IH]; intros g; simpl; [reflexivity|].
  unfold new_center.
  assert (Hn : (0 < length X)%nat) by (destruct X; [congruence | simpl; lia]).
  destruct (cluster_rows X labels k) as [|p ps] eqn:Hc; simpl.
  - rewrite (rng_integers_ok g _ Hn). simpl.
    rewrite (getitem_nth X _ []) by (now apply draw_below_range).
    simpl. rewrite IH.
    destruct (new_centers_from G X labels ks _). reflexivity.
  - rewrite IH. destruct (new_centers_from G X labels ks g). reflexivity.
Qed.

Lemma new_center_length (d : nat) (X : matrix) (labels : list nat) (k : nat)
                        (g : gen_state G) :
  X <> [] -> rect d X -> length (fst (new_center G X labels k g)) = d.
Proof.
  intros HX Hr. unfold new_center.
  assert (Hn : (0 < length X)%nat) by (destruct X; [congruence | simpl; lia]).
  destruct (cluster_rows X labels k) as [|p ps] eqn:Hc; simpl.
  - unfold rect in Hr. rewrite Forall_forall in Hr. apply Hr.
    apply nth_In. now apply draw_below_range.
  - rewrite <- Hc. apply mean_axis0_length.
    + rewrite Hc. discriminate.
    + unfold rect in *. rewrite Forall_forall in *.
      intros row Hin. apply Hr. now apply cluster_rows_In in Hin.
Qed.

Lemma new_centers_from_shape (d : nat) (X : matrix) (labels : list nat)
                             (ks : list nat) :
  X <> [] -> rect d X ->
  forall g, length (fst (new_centers_from G X labels ks g)) = length ks
            /\ rect d (fst (new_centers_from G X labels ks g)).
Proof.
  intros HX Hr. induction ks as [|k ks IH]; intros g; simpl.
  - split; [reflexivity | constructor].
  - pose proof (new_center_length d X labels k g HX Hr) as Hl.
    destruct (new_center G X labels k g) as [row g1]. simpl in Hl.
    specialize (IH g1).
    destruct (new_centers_from G X labels ks g1) as [rows g2]. simpl in *.
    destruct IH as [IH1 IH2]. split; [lia | now constructor].
Qed.

End ClusteringFacts.

(** ** The update step (C6) *)

Section UpdateStep.

Variable G : Generator.




Lemma nth_zip_with_plus (a b : list R) (j : nat) :
  (j < length a)%nat -> (j < length b)%nat ->
  nth j (zip_with Rplus a b) 0 = nth j a 0 + nth j b 0.
Proof.
  revert b j. induction a as [|x a IH]; intros [|y b] [|j] Ha Hb; simpl in *;
    try lia; [reflexivity|].
  apply IH; lia.
Qed.

Lemma fold_vec_add_nth (d j : nat) (ps : matrix) :
  (j < d)%nat -> rect d ps ->
  forall p, length p = d ->
    nth j (fold_left vec_add ps p) 0 = nth j p 0 + col_sum j ps.
Proof.
  intros Hj. induction 1 as [|q ps Hq Hps IH]; intros p Hp; simpl.
  - unfold col_sum. simpl. lra.
  - rewrite IH by (unfold vec_add; now apply length_zip_with_same).
    unfold vec_add. rewrite nth_zip_with_plus by lia.
    unfold col_sum. simpl. lra.
Qed.

(** [mean_axis0] is the coordinate-wise mean. *)
Lemma mean_axis0_nth (d j : nat) (pts : matrix) :
  pts <> [] -> rect d pts -> (j < d)%nat ->
  nth j (mean_axis0 pts) 0 = col_sum j pts / INR (length pts).
Proof.
  intros Hne Hr Hj. unfold mean_axis0.
  pose proof (col_sums_length d pts Hne Hr) as Hl.
  rewrite (nth_indep _ 0 (0 / INR (length pts)))
    by (rewrite length_map; lia).
  rewrite (map_nth (fun s => s / INR (length pts))).
  f_equal.
  destruct pts as [|p ps]; [congruence|].
  apply Forall_cons_iff in Hr. destruct Hr as [Hp Hps].
  simpl col_sums. rewrite (fold_vec_add_nth d j ps Hj Hps p Hp).
  unfold col_sum. simpl. reflexivity.
Qed.


End UpdateStep.


(** ** The whole run *)

Section Run.

Variable G : Generator.

Lemma encode_points_ok (fm : option QuantumCircuit) (d L : nat) (M : matrix) :
  encodes fm d L -> rect d M ->
  exists states, _encode_points fm M = Ok states
                 /\ length states = length M
                 /\ Forall (fun s => length s = L) states.
Proof.
  intros He Hr. unfold _encode_points. apply mapM_exists.
  intros row Hin. unfold rect in Hr. rewrite Forall_forall in Hr.
  apply He, Hr, Hin.
Qed.

Lemma kmeans_loop_shapes (fm : option QuantumCircuit) (d L : nat)
                         (X : matrix) (k : Z) (iters : nat) :
  encodes fm d L -> X <> [] -> rect d X -> (0 < k)%Z ->
  forall labels centers g,
    shapes (length X) (Z.to_nat k) d labels centers ->
    exists labels' centers' g',
      kmeans_loop G fm X k iters labels centers g = Ok (labels', centers', g')
      /\ shapes (length X) (Z.to_nat k) d labels' centers'.
Proof.
  intros He HX Hr Hk.
  induction iters as [|it IH]; intros labels centers g Hs; simpl.
  - eauto.
  - destruct Hs as (Hl & Hlt & Hc & Hrc).
    destruct (encode_points_ok fm d L X He Hr) as (ds & Eds & Lds & Fds).
    destruct (encode_points_ok fm d L centers He Hrc) as (cs & Ecs & Lcs & Fcs).
    rewrite Eds, Ecs. simpl.
    destruct (assign_labels_ok L ds cs) as (labels1 & El & Ll & Fl);
      try assumption.
    { intros ->. simpl in Lcs. lia. }
    rewrite El. simpl.
    rewrite update_centers_total by assumption.
    destruct (new_centers_from_shape G d X labels1 (seq 0 (Z.to_nat k)) HX Hr g)
      as [Ln Rn].
    destruct (new_centers_from G X labels1 (seq 0 (Z.to_nat k)) g)
      as [new_centers g1]. simpl in *.
    rewrite length_seq in Ln.
    assert (Hs' : shapes (length X) (Z.to_nat k) d labels1 new_centers).
    { unfold shapes. repeat split; try assumption; try congruence.
      rewrite Lcs, Hc in Fl. exact Fl. }
    destruct (allclose new_centers centers); eauto.
Qed.

Lemma initial_shapes (X : matrix) (d : nat) (k : Z) (g : gen_state G) :
  rect d X -> (0 < k <= Z.of_nat (length X))%Z ->
  shapes (length X) (Z.to_nat k) d
         (repeat 0%nat (length X))
         (map (fun i => nth i X [])
              (fst (draw_sample G g (length X) (Z.to_nat k)))).
Proof.
  intros Hr Hk. unfold shapes. repeat split.
  - apply repeat_length.
  - apply Forall_forall. intros l Hl. apply repeat_spec in Hl. lia.
  - rewrite length_map. apply draw_sample_length. lia.
  - unfold rect in *. rewrite Forall_forall in *.
    intros row Hin. apply in_map_iff in Hin. destruct Hin as (i & <- & Hi).
    apply Hr, nth_In. exact (draw_sample_range G g _ _ i Hi).
Qed.

End Run.

Lemma zz22_built : build_zz_feature_map 2 2 = Ok zz22.
Proof. reflexivity. Qed.

Lemma zz22_parameters : parameters zz22 = [0; 1]%nat.
Proof. reflexivity. Qed.

(** The maps of [FEATURE_MAPS] are built without an exception, have two
    free parameters and encode every point of at least two components
    into four amplitudes. *)
Lemma feature_maps_encode (kind : feature_map_kind) (d : nat) :
  (2 <= d)%nat ->
  exists fm, FEATURE_MAPS kind tt = Ok fm
             /\ length (parameters fm) = 2%nat
             /\ circuit_wf fm
             /\ encodes (Some fm) d 4.
Proof.
  intros Hd.
  assert (H : exists fm, FEATURE_MAPS kind tt = Ok fm
                         /\ length (parameters fm) = 2%nat
                         /\ circuit_wf fm /\ num_qubits fm = 2%nat).
  { destruct kind; simpl.
    - exists angle2. repeat split; [exact (angle_wf 2 angle2 angle2_built)].
    - exists zz22. repeat split. exact (zz_wf 2 2 zz22 zz22_built). }
  destruct H as (fm & E & Hp & Hwf & Hq).
  exists fm. repeat split; try assumption.
  intros row Hrow.
  destruct (encode_enough fm row Hwf) as (st & Est & Lst & _); [lia|].
  exists st. rewrite Lst, Hq. auto.
Qed.

(** ** Two random sources with the same draws *)

Section SameDraws.

Variables G1 G2 : Generator.
Variable related : gen_state G1 -> gen_state G2 -> Prop.

Hypothesis Hagree : draws_agree G1 G2 related.

Lemma rng_choice_same (g1 : gen_state G1) (g2 : gen_state G2) (n : nat) (size : Z) :
  related g1 g2 ->
  same_outcome related (rng_choice G1 g1 n size) (rng_choice G2 g2 n size).
Proof.
  intros Hr. unfold rng_choice.
  destruct (size <? 0)%Z; [reflexivity|].
  destruct (Z.of_nat n <? size)%Z; [reflexivity|].
  destruct Hagree as [Hs _]. specialize (Hs g1 g2 n (Z.to_nat size) Hr).
  destruct (draw_sample G1 g1 n (Z.to_nat size)),
           (draw_sample G2 g2 n (Z.to_nat size)).
  exact Hs.
Qed.

Lemma rng_integers_same (g1 : gen_state G1) (g2 : gen_state G2) (low high : nat) :
  related g1 g2 ->
  same_outcome related (rng_integers G1 g1 low high) (rng_integers G2 g2 low high).
Proof.
  intros Hr. unfold rng_integers.
  destruct (high <=? low)%nat; [reflexivity|].
  destruct Hagree as [_ Hb]. specialize (Hb g1 g2 (high - low)%nat Hr).
  destruct (draw_below G1 g1 (high - low)), (draw_below G2 g2 (high - low)).
  simpl in *. destruct Hb as [-> Hb]. auto.
Qed.

Lemma initialize_centers_same (X : matrix) (k : Z)
                              (g1 : gen_state G1) (g2 : gen_state G2) :
  related g1 g2 ->
  same_outcome related (_initialize_centers G1 X k g1) (_initialize_centers G2 X k g2).
Proof.
  intros Hr. unfold _initialize_centers.
  pose proof (rng_choice_same g1 g2 (length X) k Hr) as Hc.
  destruct (rng_choice G1 g1 (length X) k) as [[i1 h1]|e1],
           (rng_choice G2 g2 (length X) k) as [[i2 h2]|e2];
    simpl in *; try contradiction; [|assumption].
  destruct Hc as [-> Hh].
  destruct (mapM (getitem X) i2); simpl; auto.
Qed.

Lemma update_centers_same (X : matrix) (labels : list nat) (ks : list nat) :
  forall g1 g2, related g1 g2 ->
    same_outcome related (update_centers G1 X labels ks g1)
                 (update_centers G2 X labels ks g2).
Proof.
  induction ks as [|k ks IH]; intros g1 g2 Hr; simpl; [auto|].
  destruct (Nat.eqb (length (cluster_rows X labels k)) 0).
  - pose proof (rng_integers_same g1 g2 0 (length X) Hr) as Hi.
    destruct (rng_integers G1 g1 0 (length X)) as [[i1 h1]|e1],
             (rng_integers G2 g2 0 (length X)) as [[i2 h2]|e2];
      simpl in *; try contradiction; [|assumption].
    destruct Hi as [-> Hh].
    destruct (getitem X i2) as [p|e]; simpl; [|reflexivity].
    specialize (IH h1 h2 Hh).
    destruct (update_centers G1 X labels ks h1) as [[r1 t1]|e1],
             (update_centers G2 X labels ks h2) as [[r2 t2]|e2];
      simpl in *; try contradiction; [|assumption].
    destruct IH as [-> Ht]. auto.
  - simpl. specialize (IH g1 g2 Hr).
    destruct (update_centers G1 X labels ks g1) as [[r1 t1]|e1],
             (update_centers G2 X labels ks g2) as [[r2 t2]|e2];
      simpl in *; try contradiction; [|assumption].
    destruct IH as [-> Ht]. auto.
Qed.

Lemma kmeans_loop_same (fm : option QuantumCircuit) (X : matrix) (k : Z)
                       (iters : nat) :
  forall labels centers g1 g2, related g1 g2 ->
    same_outcome related (kmeans_loop G1 fm X k iters labels centers g1)
                 (kmeans_loop G2 fm X k iters labels centers g2).
Proof.
  induction iters as [|it IH]; intros labels centers g1 g2 Hr; simpl; [auto|].
  destruct (_encode_points fm X) as [ds|e]; simpl; [|reflexivity].
  destruct (_encode_points fm centers) as [cs|e]; simpl; [|reflexivity].
  destruct (assign_labels ds cs) as [labels1|e]; simpl; [|reflexivity].
  pose proof (update_centers_same X labels1 (seq 0 (Z.to_nat k)) g1 g2 Hr) as Hu.
  destruct (update_centers G1 X labels1 (seq 0 (Z.to_nat k)) g1) as [[c1 h1]|e1],
           (update_centers G2 X labels1 (seq 0 (Z.to_nat k)) g2) as [[c2 h2]|e2];
    simpl in *; try contradiction; [|assumption].
  destruct Hu as [-> Hh].
  destruct (allclose c2 centers); [simpl; auto|].
  exact (IH labels1 c2 h1 h2 Hh).
Qed.

Lemma quantum_kmeans_same (X : matrix) (k max_iters : Z)
      (fmb : option (unit -> result QuantumCircuit)) (s1 s2 : N) :
  related (seed_state G1 s1) (seed_state G2 s2) ->
  quantum_kmeans G1 X k max_iters fmb s1 = quantum_kmeans G2 X k max_iters fmb s2.
Proof.
  intros Hr. unfold quantum_kmeans.
  destruct (match fmb with
            | Some builder => fm <- builder tt ;; Ok (Some fm)
            | None => Ok None
            end) as [fm|e]; simpl; [|reflexivity].
  pose proof (initialize_centers_same X k _ _ Hr) as Hi.
  destruct (_initialize_centers G1 X k (seed_state G1 s1)) as [[c1 h1]|e1],
           (_initialize_centers G2 X k (seed_state G2 s2)) as [[c2 h2]|e2];
    simpl in *; try contradiction; [|congruence].
  destruct Hi as [-> Hh].
  pose proof (kmeans_loop_same fm X k (Z.to_nat max_iters)
                (repeat 0%nat (length X)) c2 h1 h2 Hh) as Hl.
  destruct (kmeans_loop G1 fm X k (Z.to_nat max_iters) _ c2 h1) as [[[l1 d1] t1]|e1],
           (kmeans_loop G2 fm X k (Z.to_nat max_iters) _ c2 h2) as [[[l2 d2] t2]|e2];
    simpl in *; try contradiction; [|congruence].
  destruct Hl as [E _]. now injection E as -> ->.
Qed.

End SameDraws.

(** C3.  Two calls of [quantum_kmeans] with the same inputs and the same
    seed return the same labels and the same centers (or raise the same
    exception).  The generator seeded from [random_state] is the only
    source of randomness: a run with any other generator whose draws
    agree with it returns the same result. *)
Theorem quantum_kmeans_deterministic
        (G : Generator) (X1 X2 : matrix) (k1 k2 m1 m2 : Z)
        (fb1 fb2 : option (unit -> result QuantumCircuit)) (s1 s2 : N) :
  X1 = X2 -> k1 = k2 -> m1 = m2 -> fb1 = fb2 -> s1 = s2 ->
  quantum_kmeans G X1 k1 m1 fb1 s1 = quantum_kmeans G X2 k2 m2 fb2 s2
  /\ (forall (G' : Generator) (related : gen_state G -> gen_state G' -> Prop) (s' : N),
        draws_agree G G' related ->
        related (seed_state G s1) (seed_state G' s') ->
        quantum_kmeans G' X1 k1 m1 fb1 s' = quantum_kmeans G X1 k1 m1 fb1 s1).
Proof.
  intros -> -> -> -> ->. split; [reflexivity|].
  intros G' related s' Ha Hr. symmetry.
  now apply (quantum_kmeans_same G G' related Ha).
Qed.

Lemma quantum_kmeans_deterministic_witness :
  quantum_kmeans CounterGen.gen [[0; 0]; [1; 1]] 2 10 (Some (FEATURE_MAPS Angle)) 0
  = quantum_kmeans CounterGen.gen [[0; 0]; [1; 1]] 2 10 (Some (FEATURE_MAPS Angle)) 0.
Proof.
  apply (quantum_kmeans_deterministic CounterGen.gen
           [[0; 0]; [1; 1]] [[0; 0]; [1; 1]] 2 2 10 10
           (Some (FEATURE_MAPS Angle)) (Some (FEATURE_MAPS Angle)) 0 0);
    reflexivity.
Defined.

(** ** Claims about [quantum_kmeans] *)

Lemma feature_maps_builder_ok (kind : feature_map_kind) :
  builder_ok (Some (FEATURE_MAPS kind)).
Proof.
  intros b E. injection E as <-.
  destruct (feature_maps_encode kind 2 (le_n 2)) as (fm & Efm & _). eauto.
Qed.

Lemma built_feature_map (fmb : option (unit -> result QuantumCircuit)) :
  builder_ok fmb ->
  exists fm, match fmb with
             | Some builder => fm <- builder tt ;; Ok (Some fm)
             | None => Ok None
             end = Ok fm.
Proof.
  intros Hb. destruct fmb as [b|]; [|eauto].
  destruct (Hb b eq_refl) as (fm & E). rewrite E. simpl. eauto.
Qed.

(** C1, as stated, fails: one point of dimension 1, one cluster, one
    iteration of the angle map; the second parameter of the map stays
    free and the simulation raises. *)
Lemma quantum_kmeans_dimension_one_fails :
  [[0]] <> ([] : matrix)
  /\ (0 < 1 <= Z.of_nat (length [[0]]))%Z
  /\ rect 1 [[0]]
  /\ quantum_kmeans CounterGen.gen [[0]] 1 1 (Some (FEATURE_MAPS Angle)) 0
     = Err UnboundParameter.
Proof.
  split; [discriminate|]. split; [simpl; lia|]. split; [repeat constructor|].
  unfold quantum_kmeans.
  change (FEATURE_MAPS Angle tt) with (Ok angle2). cbn [bind].
  rewrite initialize_centers_ok by (simpl; lia). cbn [bind].
  change (Z.to_nat 1) with 1%nat. cbn [kmeans_loop].
  unfold _encode_points at 1. cbn [mapM].
  rewrite encode_short.
  - reflexivity.
  - exact (angle_wf 2 angle2 angle2_built).
  - rewrite angle2_parameters. simpl. lia.
Qed.

(** C1, amended.  For a non-empty dataset of [n] points of dimension [d],
    a cluster count [0 < k <= n] and either feature map kind,
    [quantum_kmeans] returns [n] labels, each in [[0, k)], and [k]
    centers of [d] real coordinates each, provided the points have at
    least as many components as the map has free parameters ([2 <= d])
    or no iteration is run ([max_iters <= 0]). *)
Theorem quantum_kmeans_shapes
        (G : Generator) (d : nat) (X : matrix) (k max_iters : Z)
        (kind : feature_map_kind) (random_state : N) :
  X <> [] -> rect d X ->
  (0 < k <= Z.of_nat (length X))%Z ->
  (2 <= d)%nat \/ (max_iters <= 0)%Z ->
  exists labels centers,
    quantum_kmeans G X k max_iters (Some (FEATURE_MAPS kind)) random_state
    = Ok (labels, centers)
    /\ length labels = length X
    /\ Forall (fun l => (0 <= Z.of_nat l < k)%Z) labels
    /\ Z.of_nat (length centers) = k
    /\ rect d centers.
Proof.
  intros HX Hr Hk Hd.
  assert (Hres : exists labels centers,
             quantum_kmeans G X k max_iters (Some (FEATURE_MAPS kind)) random_state
             = Ok (labels, centers)
             /\ shapes (length X) (Z.to_nat k) d labels centers).
  { unfold quantum_kmeans.
    destruct Hd as [Hd|Hm].
    - destruct (feature_maps_encode kind d Hd) as (fm & Efm & _ & _ & Henc).
      rewrite Efm. cbn [bind].
      rewrite initialize_centers_ok by lia. cbn [bind].
      destruct (kmeans_loop_shapes G (Some fm) d 4 X k (Z.to_nat max_iters)
                  Henc HX Hr ltac:(lia) _ _
                  (snd (draw_sample G (seed_state G random_state) (length X) (Z.to_nat k)))
                  (initial_shapes G X d k (seed_state G random_state) Hr Hk))
        as (labels & centers & g' & E & Hs).
      rewrite E. cbn [bind]. eauto.
    - destruct (feature_maps_encode kind 2 (le_n 2)) as (fm & Efm & _).
      rewrite Efm. cbn [bind].
      rewrite initialize_centers_ok by lia. cbn [bind].
      replace (Z.to_nat max_iters) with 0%nat by lia. cbn [kmeans_loop bind].
      do 2 eexists. split; [reflexivity|].
      now apply initial_shapes. }
  destruct Hres as (labels & centers & E & Hl & Hlt & Hc & Hrc).
  exists labels, centers. repeat split; try assumption.
  - apply Forall_forall. intros l Hin.
    rewrite Forall_forall in Hlt. specialize (Hlt l Hin). lia.
  - lia.
Qed.

(** Two points of the plane, two clusters, three iterations. *)
Lemma quantum_kmeans_shapes_witness :
  exists labels centers,
    quantum_kmeans CounterGen.gen [[0; 0]; [1; 1]] 2 3 (Some (FEATURE_MAPS ZZ)) 0
    = Ok (labels, centers)
    /\ length labels = length [[0; 0]; [1; 1]]
    /\ Forall (fun l => (0 <= Z.of_nat l < 2)%Z) labels
    /\ Z.of_nat (length centers) = 2%Z
    /\ rect 2 centers.
Proof.
  apply (quantum_kmeans_shapes CounterGen.gen 2 [[0; 0]; [1; 1]] 2 3 ZZ 0).
  - discriminate.
  - repeat constructor.
  - simpl. lia.
  - left. lia.
Defined.

(** C4, as stated, fails: with no point and no cluster the run returns
    empty labels and empty centers. *)
Lemma quantum_kmeans_empty_returns :
  length ([] : matrix) = 0%nat
  /\ quantum_kmeans CounterGen.gen [] 0 10 (Some (FEATURE_MAPS Angle)) 0
     = Ok ([], []).
Proof. split; reflexivity. Qed.

Lemma kmeans_loop_empty (G : Generator) (fm : option QuantumCircuit) (iters : nat)
                        (g : gen_state G) :
  kmeans_loop G fm [] 0 iters [] [] g = Ok ([], [], g).
Proof. destruct iters; reflexivity. Qed.

(** C4, amended.  With a builder that returns a circuit, a cluster count
    above the number of points makes [quantum_kmeans] fail, with the
    [ValueError] of the sampler; on an empty dataset it fails, with the
    same error, exactly when the cluster count is not 0, and returns
    empty labels and centers when it is 0. *)
Theorem quantum_kmeans_cluster_count
        (G : Generator) (X : matrix) (k max_iters : Z)
        (fmb : option (unit -> result QuantumCircuit)) (random_state : N) :
  builder_ok fmb ->
  ((Z.of_nat (length X) < k)%Z ->
   quantum_kmeans G X k max_iters fmb random_state = Err ValueError)
  /\ (X = [] -> k <> 0%Z ->
      quantum_kmeans G X k max_iters fmb random_state = Err ValueError)
  /\ (X = [] -> k = 0%Z ->
      quantum_kmeans G X k max_iters fmb random_state = Ok ([], [])).
Proof.
  intros Hb. destruct (built_feature_map fmb Hb) as (fm & Efm).
  unfold quantum_kmeans. rewrite Efm. cbn [bind].
  split; [|split].
  - intros Hk. now rewrite initialize_centers_large.
  - intros -> Hk.
    destruct (Z.lt_total k 0) as [Hlt|[Heq|Hgt]]; [|contradiction|].
    + now rewrite initialize_centers_negative.
    + now rewrite initialize_centers_large.
  - intros -> ->.
    rewrite initialize_centers_ok by (simpl; lia). cbn [bind].
    pose proof (draw_sample_length G (seed_state G random_state) 0 0 (le_n 0)) as Hl.
    simpl length. simpl Z.to_nat.
    destruct (draw_sample G (seed_state G random_state) 0 0) as [idx g1].
    simpl in Hl. destruct idx; [|discriminate]. simpl.
    now rewrite kmeans_loop_empty.
Qed.

Lemma quantum_kmeans_cluster_count_witness :
  ((Z.of_nat (length [[0; 0]]) < 2)%Z ->
   quantum_kmeans CounterGen.gen [[0; 0]] 2 10 (Some (FEATURE_MAPS Angle)) 0
   = Err ValueError)
  /\ ([[0; 0]] = [] -> 2%Z <> 0%Z ->
      quantum_kmeans CounterGen.gen [[0; 0]] 2 10 (Some (FEATURE_MAPS Angle)) 0
      = Err ValueError)
  /\ ([[0; 0]] = [] -> 2%Z = 0%Z ->
      quantum_kmeans CounterGen.gen [[0; 0]] 2 10 (Some (FEATURE_MAPS Angle)) 0
      = Ok ([], [])).
Proof.
  apply (quantum_kmeans_cluster_count CounterGen.gen [[0; 0]] 2 10
           (Some (FEATURE_MAPS Angle)) 0).
  exact (feature_maps_builder_ok Angle).
Defined.

(** C10.  On a non-empty dataset of [n] points, with a cluster count
    [k <= n] and [max_iters = 0], [quantum_kmeans] returns [n] labels
    all equal to 0 and the [k] initial centers: the data points at the
    [k] distinct indices the seeded generator sampled. *)
Theorem quantum_kmeans_no_iteration
        (G : Generator) (X : matrix) (k : Z)
        (fmb : option (unit -> result QuantumCircuit)) (random_state : N) :
  X <> [] -> (0 <= k <= Z.of_nat (length X))%Z -> builder_ok fmb ->
  exists indices,
    rng_choice G (seed_state G random_state) (length X) k
    = Ok (indices, snd (draw_sample G (seed_state G random_state)
                                    (length X) (Z.to_nat k)))
    /\ Z.of_nat (length indices) = k
    /\ NoDup indices
    /\ Forall (fun i => (i < length X)%nat) indices
    /\ quantum_kmeans G X k 0 fmb random_state
       = Ok (repeat 0%nat (length X), map (fun i => nth i X []) indices)
    /\ Forall2 (fun i center => nth_error X i = Some center)
               indices (map (fun i => nth i X []) indices).
Proof.
  intros HX Hk Hb.
  exists (fst (draw_sample G (seed_state G random_state) (length X) (Z.to_nat k))).
  assert (Hrange : Forall (fun i => (i < length X)%nat)
                     (fst (draw_sample G (seed_state G random_state)
                                       (length X) (Z.to_nat k)))).
  { apply Forall_forall. intros i Hi.
    exact (draw_sample_range G _ _ _ i Hi). }
  repeat split.
  - unfold rng_choice.
    destruct (Z.ltb_spec k 0); [lia|].
    destruct (Z.ltb_spec (Z.of_nat (length X)) k); [lia|].
    now destruct (draw_sample G (seed_state G random_state) (length X) (Z.to_nat k)).
  - rewrite draw_sample_length; lia.
  - apply draw_sample_NoDup.
  - exact Hrange.
  - destruct (built_feature_map fmb Hb) as (fm & Efm).
    unfold quantum_kmeans. rewrite Efm. cbn [bind].
    rewrite initialize_centers_ok by lia. reflexivity.
  - induction Hrange as [|i l Hi _ IH]; simpl; constructor; [|exact IH].
    now apply nth_error_nth'.
Qed.

Lemma quantum_kmeans_no_iteration_witness :
  exists labels centers,
    quantum_kmeans CounterGen.gen [[0; 0]; [1; 1]; [2; 2]] 2 0
                   (Some (FEATURE_MAPS Angle)) 0
    = Ok (labels, centers)
    /\ labels = [0; 0; 0]%nat.
Proof.
  destruct (quantum_kmeans_no_iteration CounterGen.gen [[0; 0]; [1; 1]; [2; 2]] 2
              (Some (FEATURE_MAPS Angle)) 0)
    as (indices & _ & _ & _ & _ & E & _).
  - discriminate.
  - simpl. lia.
  - exact (feature_maps_builder_ok Angle).
  - eexists _, _. split; [exact E | reflexivity].
Defined.

(* ================================================================== *)
(** * Further properties *)

(** ** [fidelity] and [quantum_distance] on arbitrary arrays *)

Lemma norm2_mul (a b : Cx.C) : Cx.norm2 (Cx.mul a b) = Cx.norm2 a * Cx.norm2 b.
Proof. destruct a, b. unfold Cx.norm2, Cx.mul; simpl. ring. Qed.

Lemma vdot_sum_scale (c : Cx.C) (a b : list Cx.C) :
  vdot_sum (scale c a) b = Cx.mul (Cx.conj c) (vdot_sum a b).
Proof.
  revert b. induction a as [|x a IH]; intros [|y b]; simpl;
    try (destruct c; unfold Cx.mul, Cx.conj, Cx.zero; simpl; f_equal; ring).
  fold (scale c a). rewrite IH.
  destruct c as [cr ci], x as [xr xi], y as [yr yi], (vdot_sum a b) as [vr vi].
  unfold Cx.add, Cx.mul, Cx.conj; simpl. f_equal; ring.
Qed.

(** Without the unit norm nothing clamps the result: the fidelity of two
    arrays of one size lies between 0 and the product of their
    squared-amplitude sums, the fidelity of an array with itself is the
    square of its squared-amplitude sum, and its distance to itself is
    one minus that square. *)
Theorem fidelity_general_bound (s1 s2 : statevector) :
  length s1 = length s2 ->
  (exists f, fidelity s1 s2 = Ok f /\ 0 <= f <= sq_amp_sum s1 * sq_amp_sum s2)
  /\ fidelity s1 s1 = Ok (sq_amp_sum s1 * sq_amp_sum s1)
  /\ quantum_distance s1 s1 = Ok (1 - sq_amp_sum s1 * sq_amp_sum s1).
Proof.
  intros Hlen. rewrite !sq_amp_sum_norm2. repeat split.
  - exists (Cx.norm2 (vdot_sum s1 s2)). rewrite fidelity_eq by assumption.
    pose proof (vdot_sum_bound s1 s2). pose proof (norm2_nonneg (vdot_sum s1 s2)).
    repeat split; assumption.
  - rewrite fidelity_eq, vdot_sum_self by reflexivity.
    unfold Cx.norm2; simpl. f_equal. ring.
  - rewrite quantum_distance_eq, vdot_sum_self by reflexivity.
    unfold Cx.norm2; simpl. f_equal. ring.
Qed.

(** An array of squared-amplitude sum 4: fidelity 16, distance -15. *)
Lemma fidelity_general_bound_witness :
  (exists f, fidelity [(2, 0)] [(2, 0)] = Ok f
             /\ 0 <= f <= sq_amp_sum [(2, 0)] * sq_amp_sum [(2, 0)])
  /\ fidelity [(2, 0)] [(2, 0)] = Ok (sq_amp_sum [(2, 0)] * sq_amp_sum [(2, 0)])
  /\ quantum_distance [(2, 0)] [(2, 0)]
     = Ok (1 - sq_amp_sum [(2, 0)] * sq_amp_sum [(2, 0)]).
Proof.
  apply (fidelity_general_bound [(2, 0)] [(2, 0)]). reflexivity.
Defined.

(** Multiplying one array by a complex number [c] multiplies the fidelity
    by [|c|^2]; so a global phase [e^{i t}] changes neither the fidelity
    nor the distance. *)
Theorem fidelity_scale (c : Cx.C) (t : R) (s1 s2 : statevector) :
  fidelity (scale c s1) s2
  = (f <- fidelity s1 s2 ;; Ok (Cx.norm2 c * f))
  /\ fidelity (scale (Cx.expi t) s1) s2 = fidelity s1 s2
  /\ quantum_distance (scale (Cx.expi t) s1) s2 = quantum_distance s1 s2.
Proof.
  assert (Hc : forall c', fidelity (scale c' s1) s2
                          = (f <- fidelity s1 s2 ;; Ok (Cx.norm2 c' * f))).
  { intros c'. unfold fidelity, vdot, bind, scale. rewrite length_map.
    destruct (Nat.eqb (length s1) (length s2)); [|reflexivity].
    fold (scale c' s1).
    rewrite !abs_sq, vdot_sum_scale, norm2_mul, norm2_conj. reflexivity. }
  assert (Hp : fidelity (scale (Cx.expi t) s1) s2 = fidelity s1 s2).
  { rewrite Hc. destruct (fidelity s1 s2) as [f|e]; simpl; [|reflexivity].
    f_equal. unfold Cx.norm2, Cx.expi; simpl. rewrite cos_sin_sq. ring. }
  repeat split; [apply Hc | exact Hp |].
  unfold quantum_distance. now rewrite Hp.
Qed.

(** ** [compute_quantum_kernel] *)

Lemma nth_map_lt {A B : Type} (f : A -> B) (l : list A) (i : nat) (a : A) (b : B) :
  (i < length l)%nat -> nth i (map f l) b = f (nth i l a).
Proof.
  intros Hi. rewrite (nth_indep _ b (f a)) by (now rewrite length_map).
  apply map_nth.
Qed.

Lemma kernel_eq (L : nat) (S : list statevector) :
  Forall (fun s => length s = L) S ->
  compute_quantum_kernel S
  = Ok (map (fun si => map (fun sj => Cx.norm2 (vdot_sum si sj)) S) S).
Proof.
  intros HL. rewrite Forall_forall in HL. unfold compute_quantum_kernel.
  apply mapM_map. intros si Hi.
  apply mapM_map. intros sj Hj.
  apply fidelity_eq. now rewrite (HL si Hi), (HL sj Hj).
Qed.

(** On [n] rows of one size, [compute_quantum_kernel] returns an [n x n]
    matrix: entry [(i, j)] is the fidelity of rows [i] and [j], and the
    matrix is symmetric. *)
Theorem kernel_shape_symmetric (L : nat) (S : list statevector) :
  Forall (fun s => length s = L) S ->
  exists K,
    compute_quantum_kernel S = Ok K
    /\ length K = length S
    /\ Forall (fun row => length row = length S) K
    /\ forall i j, (i < length S)%nat -> (j < length S)%nat ->
         fidelity (nth i S []) (nth j S []) = Ok (nth j (nth i K []) 0)
         /\ nth j (nth i K []) 0 = nth i (nth j K []) 0.
Proof.
  intros HL. rewrite (kernel_eq L S HL). eexists. split; [reflexivity|].
  split; [now rewrite length_map|]. split.
  - apply Forall_forall. intros row Hrow.
    apply in_map_iff in Hrow. destruct Hrow as (si & <- & _).
    now rewrite length_map.
  - intros i j Hi Hj.
    rewrite (nth_map_lt _ S i [] []) by assumption.
    rewrite (nth_map_lt _ S j [] 0) by assumption.
    rewrite (nth_map_lt _ S j [] []) by assumption.
    rewrite (nth_map_lt _ S i [] 0) by assumption.
    rewrite Forall_forall in HL. split.
    + apply fidelity_eq.
      now rewrite (HL _ (nth_In S [] Hi)), (HL _ (nth_In S [] Hj)).
    + rewrite (vdot_sum_conj (nth j S []) (nth i S [])). now rewrite norm2_conj.
Qed.

Lemma kernel_shape_symmetric_witness :
  exists K,
    compute_quantum_kernel [[Cx.one; Cx.zero]; [Cx.zero; Cx.one]] = Ok K
    /\ length K = 2%nat.
Proof.
  destruct (kernel_shape_symmetric 2 [[Cx.one; Cx.zero]; [Cx.zero; Cx.one]])
    as (K & E & Hl & _).
  - repeat constructor.
  - exists K. split; assumption.
Defined.

(** On statevectors (unit squared-amplitude sum) the kernel has 1 on its
    diagonal and every entry in [0, 1]. *)
Theorem kernel_unit_norm (L : nat) (S : list statevector) :
  Forall (fun s => length s = L) S ->
  Forall (fun s => sq_amp_sum s = 1) S ->
  exists K,
    compute_quantum_kernel S = Ok K
    /\ (forall i, (i < length S)%nat -> nth i (nth i K []) 0 = 1)
    /\ (forall i j, (i < length S)%nat -> (j < length S)%nat ->
          0 <= nth j (nth i K []) 0 <= 1).
Proof.
  intros HL HU. rewrite (kernel_eq L S HL). eexists. split; [reflexivity|].
  rewrite Forall_forall in HU.
  assert (Hn : forall i, (i < length S)%nat -> norm2_sum (nth i S []) = 1).
  { intros i Hi. rewrite <- sq_amp_sum_norm2. apply HU, nth_In, Hi. }
  split.
  - intros i Hi.
    rewrite (nth_map_lt _ S i [] []), (nth_map_lt _ S i [] 0) by assumption.
    rewrite vdot_sum_self, (Hn i Hi). unfold Cx.norm2; simpl. ring.
  - intros i j Hi Hj.
    rewrite (nth_map_lt _ S i [] []), (nth_map_lt _ S j [] 0) by assumption.
    pose proof (vdot_sum_bound (nth i S []) (nth j S [])) as Hb.
    rewrite (Hn i Hi), (Hn j Hj) in Hb.
    pose proof (norm2_nonneg (vdot_sum (nth i S []) (nth j S []))). lra.
Qed.

Lemma kernel_unit_norm_witness :
  exists K,
    compute_quantum_kernel [[Cx.one; Cx.zero]; [Cx.zero; Cx.one]] = Ok K
    /\ nth 0 (nth 0 K []) 0 = 1.
Proof.
  destruct (kernel_unit_norm 2 [[Cx.one; Cx.zero]; [Cx.zero; Cx.one]])
    as (K & E & Hd & _).
  - repeat constructor.
  - repeat constructor; rewrite sq_amp_sum_norm2;
      unfold norm2_sum, Cx.norm2; simpl; lra.
  - exists K. split; [assumption | apply Hd; simpl; lia].
Defined.

(** ** The angle encoding map *)

Lemma filter_all {A : Type} (f : A -> bool) (l : list A) :
  (forall a, In a l -> f a = true) -> filter f l = l.
Proof.
  induction l as [|a l IH]; intros H; simpl; [reflexivity|].
  rewrite (H a (or_introl eq_refl)). f_equal. apply IH. intros; apply H; now right.
Qed.

Lemma parameters_of_range (qc : QuantumCircuit) (n : nat) :
  (forall i, In i (circuit_vars qc) <-> (i < n)%nat) ->
  parameters qc = seq 0 n.
Proof.
  intros H. unfold parameters.
  assert (Hle : forall m, (forall i, In i (circuit_vars qc) -> (i <= m)%nat) ->
                          (list_max (circuit_vars qc) <= m)%nat).
  { intros m Hm. apply list_max_le, Forall_forall. exact Hm. }
  assert (Hge : forall i, In i (circuit_vars qc) ->
                          (i <= list_max (circuit_vars qc))%nat).
  { assert (Hf : Forall (fun k => (k <= list_max (circuit_vars qc))%nat)
                        (circuit_vars qc))
      by (apply list_max_le; lia).
    rewrite Forall_forall in Hf. exact Hf. }
  destruct n as [|n].
  - assert (Hv : circuit_vars qc = []).
    { destruct (circuit_vars qc) as [|i l]; [reflexivity|].
      exfalso. assert (Hi : (i < 0)%nat) by (apply H; now left). lia. }
    rewrite Hv. reflexivity.
  - assert (Hm : list_max (circuit_vars qc) = n).
    { apply Nat.le_antisymm.
      - apply Hle. intros i Hi. apply H in Hi. lia.
      - apply Hge, H. lia. }
    rewrite Hm. apply filter_all. intros i Hi. apply in_seq in Hi.
    apply existsb_exists. exists i. split; [apply H; lia | apply Nat.eqb_refl].
Qed.

Lemma angle_vars (n : nat) (fm : QuantumCircuit) (i : nat) :
  build_angle_encoding_map n = Ok fm ->
  In i (circuit_vars fm) <-> (i < n)%nat.
Proof.
  intros E. injection E as <-. unfold circuit_vars. simpl.
  rewrite in_flat_map. split.
  - intros (g & Hg & Hi). apply in_flat_map in Hg. destruct Hg as (q & Hq & Hg).
    apply in_seq in Hq.
    destruct Hg as [<-|[<-|[]]]; simpl in Hi; intuition lia.
  - intros Hi. exists (Gate_ry (PVar i) i). split; [|simpl; auto].
    apply in_flat_map. exists i. split; [apply in_seq; lia | simpl; auto].
Qed.

(** [build_angle_encoding_map(n)] gives a circuit on [n] qubits with two
    gates per qubit and the [n] free parameters [x[0], ..., x[n-1]], in
    this order: the point's component [i] goes to qubit [i]. *)
Theorem angle_map_parameters (n : nat) :
  exists fm,
    build_angle_encoding_map n = Ok fm
    /\ num_qubits fm = n
    /\ length (data fm) = (2 * n)%nat
    /\ parameters fm = seq 0 n
    /\ circuit_wf fm.
Proof.
  eexists. split; [reflexivity|]. split; [reflexivity|]. split; [|split].
  - cbn [data].
    assert (Hl : forall l : list nat,
               length (flat_map (fun i => [Gate_ry (PVar i) i;
                                           Gate_rz (PDiv (PVar i) (PConst 2)) i]) l)
               = (2 * length l)%nat).
    { induction l as [|i l IH]; simpl in *; lia. }
    now rewrite Hl, length_seq.
  - apply parameters_of_range. intros i. now apply (angle_vars n).
  - now apply (angle_wf n).
Qed.

(** With the [n]-qubit angle map, [encode_to_statevector] returns
    [2^n] amplitudes of unit squared sum for every point of at least [n]
    components, and raises for every shorter point. *)
Theorem angle_encode_outcome (n : nat) (fm : QuantumCircuit) (x : list R) :
  build_angle_encoding_map n = Ok fm ->
  ((n <= length x)%nat ->
   exists st, encode_to_statevector (Some fm) x = Ok st
              /\ length st = (2 ^ n)%nat /\ sq_amp_sum st = 1)
  /\ ((length x < n)%nat ->
      encode_to_statevector (Some fm) x = Err UnboundParameter).
Proof.
  intros E.
  assert (Hp : length (parameters fm) = n).
  { rewrite (parameters_of_range fm n), length_seq; [reflexivity|].
    intros i. now apply (angle_vars n). }
  assert (Hq : num_qubits fm = n) by (injection E as <-; reflexivity).
  pose proof (angle_wf n fm E) as Hwf. split; intros Hlen.
  - destruct (encode_enough fm x Hwf) as (st & Est & Lst & Nst); [lia|].
    exists st. rewrite <- Hq. auto.
  - apply encode_short; [assumption | lia].
Qed.

Lemma angle_encode_outcome_witness :
  exists st, encode_to_statevector (Some angle2) [1; 2] = Ok st
             /\ length st = 4%nat.
Proof.
  destruct (angle_encode_outcome 2 angle2 [1; 2] angle2_built) as [Hok _].
  destruct Hok as (st & E & L & _); [simpl; lia|].
  exists st. split; [exact E | exact L].
Defined.

(** ** Edge cases of [quantum_kmeans] *)

(** A helper shared by the properties below: under the hypotheses of the
    amended C1 with at least two components per point, the run returns
    and keeps the shapes. *)
Lemma quantum_kmeans_runs (G : Generator) (d : nat) (X : matrix) (k max_iters : Z)
                          (kind : feature_map_kind) (random_state : N) :
  X <> [] -> rect d X -> (0 < k <= Z.of_nat (length X))%Z -> (2 <= d)%nat ->
  exists labels centers,
    quantum_kmeans G X k max_iters (Some (FEATURE_MAPS kind)) random_state
    = Ok (labels, centers)
    /\ shapes (length X) (Z.to_nat k) d labels centers.
Proof.
  intros HX Hr Hk Hd. unfold quantum_kmeans.
  destruct (feature_maps_encode kind d Hd) as (fm & Efm & _ & _ & Henc).
  rewrite Efm. cbn [bind].
  rewrite initialize_centers_ok by lia. cbn [bind].
  destruct (kmeans_loop_shapes G (Some fm) d 4 X k (Z.to_nat max_iters)
              Henc HX Hr ltac:(lia) _ _
              (snd (draw_sample G (seed_state G random_state) (length X) (Z.to_nat k)))
              (initial_shapes G X d k (seed_state G random_state) Hr Hk))
    as (labels & centers & g' & E & Hs).
  rewrite E. cbn [bind]. eauto.
Qed.

(** The default [feature_map_builder=None] cannot be used: on a non-empty
    dataset, with a cluster count the sampler accepts and at least one
    iteration, the first encoding raises [AttributeError]. *)
Theorem quantum_kmeans_without_feature_map
        (G : Generator) (X : matrix) (k max_iters : Z) (random_state : N) :
  X <> [] -> (0 <= k <= Z.of_nat (length X))%Z -> (1 <= max_iters)%Z ->
  quantum_kmeans G X k max_iters None random_state = Err AttributeError.
Proof.
  intros HX Hk Hm. unfold quantum_kmeans. cbn [bind].
  rewrite initialize_centers_ok by lia. cbn [bind].
  destruct (Z.to_nat max_iters) as [|it] eqn:Hit; [lia|].
  cbn [kmeans_loop].
  destruct X as [|row X]; [congruence|]. reflexivity.
Qed.

Lemma quantum_kmeans_without_feature_map_witness :
  quantum_kmeans CounterGen.gen [[0; 0]; [1; 1]] 2 10 None 0 = Err AttributeError.
Proof.
  apply (quantum_kmeans_without_feature_map CounterGen.gen [[0; 0]; [1; 1]] 2 10 0).
  - discriminate.
  - simpl. lia.
  - lia.
Defined.

(** A cluster count that is not positive, on a non-empty dataset of
    points with at least two components: a negative count is refused by
    the sampler; the count 0 passes the sampler and, with at least one
    iteration, fails at the first [np.argmin] over no distance; with no
    iteration it returns the zero labels and no center.  All failures
    are [ValueError]. *)
Theorem quantum_kmeans_nonpositive_clusters
        (G : Generator) (d : nat) (X : matrix) (k max_iters : Z)
        (kind : feature_map_kind) (random_state : N) :
  X <> [] -> rect d X -> (2 <= d)%nat ->
  ((k < 0)%Z ->
   quantum_kmeans G X k max_iters (Some (FEATURE_MAPS kind)) random_state
   = Err ValueError)
  /\ (k = 0%Z -> (1 <= max_iters)%Z ->
      quantum_kmeans G X k max_iters (Some (FEATURE_MAPS kind)) random_state
      = Err ValueError)
  /\ (k = 0%Z -> (max_iters <= 0)%Z ->
      quantum_kmeans G X k max_iters (Some (FEATURE_MAPS kind)) random_state
      = Ok (repeat 0%nat (length X), [])).
Proof.
  intros HX Hr Hd.
  destruct (feature_maps_encode kind d Hd) as (fm & Efm & _ & _ & Henc).
  unfold quantum_kmeans. rewrite Efm. cbn [bind].
  assert (H0 : fst (draw_sample G (seed_state G random_state) (length X) 0) = []).
  { pose proof (draw_sample_length G (seed_state G random_state) (length X) 0
                  (Nat.le_0_l _)) as Hl.
    destruct (fst (draw_sample G (seed_state G random_state) (length X) 0));
      [reflexivity | discriminate]. }
  split; [|split].
  - intros Hk. now rewrite initialize_centers_negative.
  - intros -> Hm.
    rewrite initialize_centers_ok by lia. cbn [bind].
    change (Z.to_nat 0) with 0%nat. rewrite H0. cbn [map].
    destruct (Z.to_nat max_iters) as [|it] eqn:Hit; [lia|].
    cbn [kmeans_loop].
    destruct (encode_points_ok (Some fm) d 4 X Henc Hr) as (ds & Eds & Lds & _).
    rewrite Eds. cbn [bind _encode_points mapM].
    destruct ds as [|s ds]; [destruct X; [congruence | discriminate]|].
    reflexivity.
  - intros -> Hm.
    rewrite initialize_centers_ok by lia. cbn [bind].
    change (Z.to_nat 0) with 0%nat. rewrite H0.
    replace (Z.to_nat max_iters) with 0%nat by lia. reflexivity.
Qed.

Lemma quantum_kmeans_nonpositive_clusters_witness :
  quantum_kmeans CounterGen.gen [[0; 0]; [1; 1]] 0 10 (Some (FEATURE_MAPS Angle)) 0
  = Err ValueError.
Proof.
  destruct (quantum_kmeans_nonpositive_clusters CounterGen.gen 2 [[0; 0]; [1; 1]]
              0 10 Angle 0) as (_ & H & _).
  - discriminate.
  - repeat constructor.
  - lia.
  - apply H; [reflexivity | lia].
Defined.

(** ** [_initialize_centers] *)

Lemma NoDup_map_nth (X : matrix) (idx : list nat) :
  NoDup X -> NoDup idx -> (forall i, In i idx -> (i < length X)%nat) ->
  NoDup (map (fun i => nth i X []) idx).
Proof.
  intros HX Hnd. induction Hnd as [|i l Hi Hnd IH]; intros Hr; simpl; constructor.
  - intros Hin. apply in_map_iff in Hin. destruct Hin as (j & Ej & Hj).
    assert (Hij : j = i).
    { apply (proj1 (NoDup_nth X []) HX); [apply Hr; now right | apply Hr; now left | exact Ej]. }
    subst. contradiction.
  - apply IH. intros j Hj. apply Hr. now right.
Qed.

(** [_initialize_centers] returns exactly when [0 <= n_clusters <= n],
    and raises [ValueError] otherwise.  The centers it returns are
    [n_clusters] rows of the data; when the rows of the data are
    pairwise different, so are the centers. *)
Theorem initialize_centers_outcome
        (G : Generator) (X : matrix) (k : Z) (g : gen_state G) :
  ((0 <= k <= Z.of_nat (length X))%Z ->
   exists centers g',
     _initialize_centers G X k g = Ok (centers, g')
     /\ Z.of_nat (length centers) = k
     /\ (forall c, In c centers -> In c X)
     /\ (NoDup X -> NoDup centers))
  /\ (~ (0 <= k <= Z.of_nat (length X))%Z ->
      _initialize_centers G X k g = Err ValueError).
Proof.
  split.
  - intros Hk. rewrite initialize_centers_ok by assumption.
    do 2 eexists. split; [reflexivity|].
    pose proof (draw_sample_range G g (length X) (Z.to_nat k)) as Hr.
    pose proof (draw_sample_NoDup G g (length X) (Z.to_nat k)) as Hnd.
    pose proof (draw_sample_length G g (length X) (Z.to_nat k) ltac:(lia)) as Hl.
    set (idx := fst (draw_sample G g (length X) (Z.to_nat k))) in *.
    split; [rewrite length_map; lia|]. split.
    + intros c Hc. apply in_map_iff in Hc. destruct Hc as (i & <- & Hi).
      apply nth_In, Hr, Hi.
    + intros HX. apply NoDup_map_nth; assumption.
  - intros Hk.
    destruct (Z.lt_ge_cases k 0) as [Hneg|Hpos].
    + now apply initialize_centers_negative.
    + apply initialize_centers_large. lia.
Qed.

(** ** The update step without an empty cluster *)



(** ** The assignment step picks the nearest center *)

Lemma mapM_inv {A B : Type} (f : A -> result B) (l : list A) (bs : list B) :
  mapM f l = Ok bs -> Forall2 (fun a b => f a = Ok b) l bs.
Proof.
  revert bs. induction l as [|a l IH]; intros bs H; simpl in H.
  - injection H as <-. constructor.
  - destruct (f a) as [b|e] eqn:Ea; simpl in H; [|discriminate].
    destruct (mapM f l) as [bs'|e] eqn:El; simpl in H; [|discriminate].
    injection H as <-. constructor; [assumption | now apply IH].
Qed.

Lemma Forall2_nth_lt {A B : Type} (P : A -> B -> Prop) (l : list A) (l' : list B)
                     (a : A) (b : B) (j : nat) :
  Forall2 P l l' -> (j < length l)%nat -> P (nth j l a) (nth j l' b).
Proof.
  intros H. revert j. induction H as [|x y l l' Hxy _ IH]; intros j Hj; simpl in *.
  - lia.
  - destruct j as [|j]; [assumption | apply IH; lia].
Qed.

Lemma argmin_from_spec (l : list R) :
  forall (pre : list R) (bi : nat) (b : R) (i : nat),
    length pre = i -> (bi < i)%nat -> nth bi pre 0 = b ->
    (forall j, (j < i)%nat -> b <= nth j pre 0) ->
    (forall j, (j < bi)%nat -> b < nth j pre 0) ->
    (argmin_from bi b i l < length (pre ++ l))%nat
    /\ (forall j, (j < length (pre ++ l))%nat ->
          nth (argmin_from bi b i l) (pre ++ l) 0 <= nth j (pre ++ l) 0)
    /\ (forall j, (j < argmin_from bi b i l)%nat ->
          nth (argmin_from bi b i l) (pre ++ l) 0 < nth j (pre ++ l) 0).
Proof.
  induction l as [|v l IH]; intros pre bi b i Hlen Hbi Hb Hmin Hfirst.
  - simpl. rewrite app_nil_r, Hlen, Hb. auto.
  - simpl argmin_from.
    replace (pre ++ v :: l) with ((pre ++ [v]) ++ l)
      by (now rewrite <- app_assoc).
    assert (Hnth : forall j, (j < i)%nat -> nth j (pre ++ [v]) 0 = nth j pre 0).
    { intros j Hj. apply app_nth1. lia. }
    assert (Hv : nth i (pre ++ [v]) 0 = v).
    { rewrite <- Hlen. apply nth_middle. }
    assert (Hl' : length (pre ++ [v]) = S i).
    { rewrite length_app. simpl. lia. }
    destruct (Rlt_dec v b) as [Hlt|Hge].
    + apply IH; try assumption; try lia.
      * intros j Hj. destruct (Nat.eq_dec j i) as [->|Hne].
        -- rewrite Hv. lra.
        -- rewrite Hnth by lia. specialize (Hmin j ltac:(lia)). lra.
      * intros j Hj. rewrite Hnth by lia. specialize (Hmin j Hj). lra.
    + apply IH; try assumption; try lia.
      * rewrite Hnth by lia. assumption.
      * intros j Hj. destruct (Nat.eq_dec j i) as [->|Hne].
        -- rewrite Hv. lra.
        -- rewrite Hnth by lia. apply Hmin. lia.
      * intros j Hj. rewrite Hnth by lia. now apply Hfirst.
Qed.

Lemma argmin_spec (l : list R) (r : nat) :
  argmin l = Ok r ->
  (r < length l)%nat
  /\ (forall j, (j < length l)%nat -> nth r l 0 <= nth j l 0)
  /\ (forall j, (j < r)%nat -> nth r l 0 < nth j l 0).
Proof.
  destruct l as [|v l]; simpl; [discriminate|].
  intros E. injection E as <-.
  apply (argmin_from_spec l [v] 0%nat v 1%nat); try reflexivity; try lia.
  - intros j Hj. replace j with 0%nat by lia. simpl. lra.
Qed.

(** Every label [assign_labels] returns is the index of a center at
    least quantum distance from the data state, and the first such index:
    every center before it is strictly farther. *)
Theorem assign_labels_nearest
        (data_states center_states : list statevector) (labels : list nat) :
  assign_labels data_states center_states = Ok labels ->
  Forall2 (fun state label =>
             (label < length center_states)%nat
             /\ exists dmin,
                 quantum_distance state (nth label center_states []) = Ok dmin
                 /\ forall j dj, (j < length center_states)%nat ->
                      quantum_distance state (nth j center_states []) = Ok dj ->
                      dmin <= dj /\ ((j < label)%nat -> dmin < dj))
          data_states labels.
Proof.
  intros H. unfold assign_labels in H. apply mapM_inv in H.
  induction H as [|state label ds ls Hs _ IH]; constructor; [|exact IH].
  destruct (mapM (fun c_state => quantum_distance state c_state) center_states)
    as [distances|e] eqn:Ed; simpl in Hs; [|discriminate].
  apply mapM_inv in Ed.
  pose proof (Forall2_length Ed) as Hlen.
  destruct (argmin_spec distances label Hs) as (Hr & Hmin & Hfirst).
  rewrite <- Hlen in Hr, Hmin. split; [assumption|].
  exists (nth label distances 0). split.
  - exact (Forall2_nth_lt _ _ _ [] 0 label Ed Hr).
  - intros j dj Hj Edj.
    pose proof (Forall2_nth_lt _ _ _ [] 0 j Ed Hj) as Ej. cbv beta in Ej.
    pose proof (eq_trans (eq_sym Edj) Ej) as Hd. injection Hd as ->.
    split; [now apply Hmin | now apply Hfirst].
Qed.

(** Two data states and two centers: the state [|1>] is nearest to the
    second center, the state [|0>] to the first. *)
Lemma assign_two_centers :
  assign_labels [[Cx.zero; Cx.one]; [Cx.one; Cx.zero]]
                [[Cx.one; Cx.zero]; [Cx.zero; Cx.one]]
  = Ok [1%nat; 0%nat].
Proof.
  unfold assign_labels. cbn [mapM].
  rewrite !quantum_distance_eq by reflexivity. cbn [bind argmin argmin_from].
  unfold Cx.norm2, Cx.add, Cx.mul, Cx.conj, Cx.one, Cx.zero; simpl.
  destruct (Rlt_dec _ _) as [Hlt|Hge]; [|exfalso; lra].
  destruct (Rlt_dec _ _) as [Hlt'|Hge']; [exfalso; lra|].
  reflexivity.
Qed.

Lemma assign_labels_nearest_witness :
  Forall2 (fun state label =>
             (label < length [[Cx.one; Cx.zero]; [Cx.zero; Cx.one]])%nat
             /\ exists dmin,
                 quantum_distance state
                   (nth label [[Cx.one; Cx.zero]; [Cx.zero; Cx.one]] []) = Ok dmin
                 /\ forall j dj,
                      (j < length [[Cx.one; Cx.zero]; [Cx.zero; Cx.one]])%nat ->
                      quantum_distance state
                        (nth j [[Cx.one; Cx.zero]; [Cx.zero; Cx.one]] []) = Ok dj ->
                      dmin <= dj /\ ((j < label)%nat -> dmin < dj))
          [[Cx.zero; Cx.one]; [Cx.one; Cx.zero]] [1%nat; 0%nat].
Proof.
  apply (assign_labels_nearest [[Cx.zero; Cx.one]; [Cx.one; Cx.zero]]
           [[Cx.one; Cx.zero]; [Cx.zero; Cx.one]] [1%nat; 0%nat]).
  exact assign_two_centers.
Defined.

(** ** The centers stay in the range of the data *)

Lemma col_sum_bounds (j : nat) (lo hi : R) (pts : matrix) :
  in_range j lo hi pts ->
  INR (length pts) * lo <= col_sum j pts <= INR (length pts) * hi.
Proof.
  unfold in_range, col_sum. induction pts as [|p pts IH]; intros H.
  - simpl. lra.
  - cbn [length map fold_right]. rewrite S_INR.
    specialize (IH (fun row Hr => H row (or_intror Hr))).
    specialize (H p (or_introl eq_refl)). lra.
Qed.

Lemma mean_in_range (d j : nat) (lo hi : R) (pts : matrix) :
  pts <> [] -> rect d pts -> (j < d)%nat -> in_range j lo hi pts ->
  lo <= nth j (mean_axis0 pts) 0 <= hi.
Proof.
  intros Hne Hr Hj Hb. rewrite (mean_axis0_nth d j pts Hne Hr Hj).
  pose proof (col_sum_bounds j lo hi pts Hb) as Hs.
  assert (Hn : 0 < INR (length pts)).
  { apply lt_0_INR. destruct pts; [congruence | simpl; lia]. }
  set (n := INR (length pts)) in *. set (s := col_sum j pts) in *.
  clearbody n s. unfold Rdiv.
  pose proof (Rinv_0_lt_compat n Hn) as Hi.
  assert (Hni : n * / n = 1) by (apply Rinv_r; lra).
  split.
  - replace lo with ((n * lo) * / n) by (rewrite Rmult_assoc, (Rmult_comm lo), <- Rmult_assoc, Hni; ring).
    apply Rmult_le_compat_r; lra.
  - replace hi with ((n * hi) * / n) by (rewrite Rmult_assoc, (Rmult_comm hi), <- Rmult_assoc, Hni; ring).
    apply Rmult_le_compat_r; lra.
Qed.

Lemma new_centers_in_range (G : Generator) (d j : nat) (lo hi : R)
                           (X : matrix) (labels : list nat) (ks : list nat) :
  X <> [] -> rect d X -> (j < d)%nat -> in_range j lo hi X ->
  forall g, in_range j lo hi (fst (new_centers_from G X labels ks g)).
Proof.
  intros HX Hr Hj Hb.
  assert (Hn : (0 < length X)%nat) by (destruct X; [congruence | simpl; lia]).
  induction ks as [|k ks IH]; intros g; simpl.
  - intros row [].
  - assert (Hc : lo <= nth j (fst (new_center G X labels k g)) 0 <= hi).
    { unfold new_center.
      destruct (cluster_rows X labels k) as [|p ps] eqn:Hc; cbn [fst].
      - apply Hb, nth_In. now apply draw_below_range.
      - rewrite <- Hc. apply (mean_in_range d); try assumption.
        + rewrite Hc. discriminate.
        + unfold rect in *. rewrite Forall_forall in *.
          intros row Hin. apply Hr. now apply cluster_rows_In in Hin.
        + intros row Hin. apply Hb. now apply cluster_rows_In in Hin. }
    destruct (new_center G X labels k g) as [row g1]. cbn [fst] in Hc.
    specialize (IH g1).
    destruct (new_centers_from G X labels ks g1) as [rows g2]. cbn [fst] in *.
    intros r [<-|Hin]; [exact Hc | now apply IH].
Qed.

Lemma kmeans_loop_in_range (G : Generator) (fm : option QuantumCircuit)
                           (d j : nat) (lo hi : R) (X : matrix) (k : Z)
                           (iters : nat) :
  X <> [] -> rect d X -> (j < d)%nat -> in_range j lo hi X ->
  forall labels centers g labels' centers' g',
    in_range j lo hi centers ->
    kmeans_loop G fm X k iters labels centers g = Ok (labels', centers', g') ->
    in_range j lo hi centers'.
Proof.
  intros HX Hr Hj Hb.
  induction iters as [|it IH]; intros labels centers g labels' centers' g' Hc E;
    simpl in E.
  - injection E as <- <- <-. assumption.
  - destruct (_encode_points fm X) as [ds|e]; simpl in E; [|discriminate].
    destruct (_encode_points fm centers) as [cs|e]; simpl in E; [|discriminate].
    destruct (assign_labels ds cs) as [labels1|e]; simpl in E; [|discriminate].
    rewrite update_centers_total in E by assumption.
    pose proof (new_centers_in_range G d j lo hi X labels1 (seq 0 (Z.to_nat k))
                  HX Hr Hj Hb g) as Hnew.
    destruct (new_centers_from G X labels1 (seq 0 (Z.to_nat k)) g) as [nc g1].
    cbn [fst bind] in *.
    destruct (allclose nc centers).
    + injection E as <- <- <-. assumption.
    + exact (IH _ _ _ _ _ _ Hnew E).
Qed.

(** Whenever [quantum_kmeans] returns, on a non-empty dataset of points
    of [d] components, every coordinate of every center lies between the
    least and the greatest value of that coordinate over the data:
    whatever the feature map, the cluster count and the iteration
    budget. *)
Theorem centers_in_data_range
        (G : Generator) (d j : nat) (lo hi : R) (X : matrix) (k max_iters : Z)
        (fmb : option (unit -> result QuantumCircuit)) (random_state : N)
        (labels : list nat) (centers : matrix) :
  X <> [] -> rect d X -> (j < d)%nat -> in_range j lo hi X ->
  quantum_kmeans G X k max_iters fmb random_state = Ok (labels, centers) ->
  in_range j lo hi centers.
Proof.
  intros HX Hr Hj Hb E. unfold quantum_kmeans in E.
  destruct (match fmb with
            | Some builder => fm <- builder tt ;; Ok (Some fm)
            | None => Ok None
            end) as [fm|e]; simpl in E; [|discriminate].
  destruct (Z.lt_ge_cases k 0) as [Hneg|Hpos].
  { rewrite initialize_centers_negative in E by assumption. discriminate. }
  destruct (Z.lt_ge_cases (Z.of_nat (length X)) k) as [Hbig|Hle].
  { rewrite initialize_centers_large in E by assumption. discriminate. }
  rewrite initialize_centers_ok in E by lia. cbn [bind] in E.
  destruct (kmeans_loop G fm X k (Z.to_nat max_iters) _ _ _)
    as [[[l c] g']|e] eqn:El; simpl in E; [|discriminate].
  injection E as <- <-.
  apply (kmeans_loop_in_range G fm d j lo hi X k _ HX Hr Hj Hb _ _ _ _ _ _) in El;
    [assumption|].
  intros row Hin. apply in_map_iff in Hin. destruct Hin as (i & <- & Hi).
  apply Hb, nth_In. exact (draw_sample_range G _ _ _ i Hi).
Qed.

Lemma centers_in_data_range_witness :
  exists labels centers,
    quantum_kmeans CounterGen.gen [[0; 0]; [1; 1]] 2 3 (Some (FEATURE_MAPS ZZ)) 0
    = Ok (labels, centers)
    /\ in_range 0 0 1 centers.
Proof.
  destruct (quantum_kmeans_runs CounterGen.gen 2 [[0; 0]; [1; 1]] 2 3 ZZ 0)
    as (labels & centers & E & _).
  - discriminate.
  - repeat constructor.
  - simpl. lia.
  - lia.
  - exists labels, centers. split; [exact E|].
    apply (centers_in_data_range CounterGen.gen 2 0 0 1 [[0; 0]; [1; 1]] 2 3
             (Some (FEATURE_MAPS ZZ)) 0 labels centers).
    + discriminate.
    + repeat constructor.
    + lia.
    + intros row [<-|[<-|[]]]; simpl; lra.
    + exact E.
Defined.

(** ** One cluster *)

Lemma cluster_rows_all_zero (X : matrix) :
  cluster_rows X (repeat 0%nat (length X)) 0 = X.
Proof.
  unfold cluster_rows. induction X as [|row X IH]; simpl; [reflexivity|].
  now rewrite IH.
Qed.

Lemma assign_labels_one_center (L : nat) (ds : list statevector) (s : statevector) :
  Forall (fun st => length st = L) ds -> length s = L ->
  assign_labels ds [s] = Ok (repeat 0%nat (length ds)).
Proof.
  intros Hd Hs. unfold assign_labels.
  rewrite (mapM_map _ (fun _ => 0%nat)).
  - now rewrite map_const.
  - intros st Hin. rewrite Forall_forall in Hd.
    cbn [mapM]. rewrite quantum_distance_eq by (rewrite (Hd st Hin); congruence).
    reflexivity.
Qed.

Lemma kmeans_loop_one_cluster (G : Generator) (fm : option QuantumCircuit)
                              (d L : nat) (X : matrix) (iters : nat) :
  encodes fm d L -> X <> [] -> rect d X ->
  forall labels c g, length c = d ->
    kmeans_loop G fm X 1 (S iters) labels [c] g
    = Ok (repeat 0%nat (length X), [mean_axis0 X], g).
Proof.
  intros He HX Hr.
  induction iters as [|it IH]; intros labels c g Hc.
  - cbn [kmeans_loop].
    destruct (encode_points_ok fm d L X He Hr) as (ds & Eds & Lds & Fds).
    destruct (encode_points_ok fm d L [c] He) as (cs & Ecs & Lcs & Fcs);
      [repeat constructor; assumption|].
    rewrite Eds, Ecs. cbn [bind].
    destruct cs as [|s [|s' cs]]; try discriminate.
    rewrite (assign_labels_one_center L ds s Fds)
      by (now apply Forall_inv in Fcs).
    cbn [bind]. rewrite update_centers_total by assumption.
    change (Z.to_nat 1) with 1%nat. cbn [seq new_centers_from].
    unfold new_center. rewrite Lds, cluster_rows_all_zero.
    destruct X as [|row X']; [congruence|]. cbn [bind].
    destruct (allclose _ _); reflexivity.
  - remember (S it) as n eqn:Hn. cbn [kmeans_loop].
    destruct (encode_points_ok fm d L X He Hr) as (ds & Eds & Lds & Fds).
    destruct (encode_points_ok fm d L [c] He) as (cs & Ecs & Lcs & Fcs);
      [repeat constructor; assumption|].
    rewrite Eds, Ecs. cbn [bind].
    destruct cs as [|s [|s' cs]]; try discriminate.
    rewrite (assign_labels_one_center L ds s Fds)
      by (now apply Forall_inv in Fcs).
    cbn [bind]. rewrite update_centers_total by assumption.
    change (Z.to_nat 1) with 1%nat. cbn [seq new_centers_from].
    unfold new_center. rewrite Lds, cluster_rows_all_zero.
    assert (Hm : length (mean_axis0 X) = d) by (now apply mean_axis0_length).
    destruct X as [|row X'] eqn:EX; [congruence|]. cbn [bind].
    rewrite <- EX in *.
    destruct (allclose _ _); [reflexivity|].
    subst n. now apply IH.
Qed.

(** With one cluster and at least one iteration, on a non-empty dataset
    of points with at least two components, [quantum_kmeans] puts every
    point in cluster 0 and returns the mean of the data as the only
    center, whatever the seed and the feature map kind. *)
Theorem quantum_kmeans_one_cluster
        (G : Generator) (d : nat) (X : matrix) (max_iters : Z)
        (kind : feature_map_kind) (random_state : N) :
  X <> [] -> rect d X -> (2 <= d)%nat -> (1 <= max_iters)%Z ->
  quantum_kmeans G X 1 max_iters (Some (FEATURE_MAPS kind)) random_state
  = Ok (repeat 0%nat (length X), [mean_axis0 X]).
Proof.
  intros HX Hr Hd Hm.
  assert (Hn : (0 < length X)%nat) by (destruct X; [congruence | simpl; lia]).
  destruct (feature_maps_encode kind d Hd) as (fm & Efm & _ & _ & Henc).
  unfold quantum_kmeans. rewrite Efm. cbn [bind].
  rewrite initialize_centers_ok by lia. cbn [bind].
  change (Z.to_nat 1) with 1%nat.
  pose proof (draw_sample_length G (seed_state G random_state) (length X) 1
                ltac:(lia)) as Hl.
  pose proof (draw_sample_range G (seed_state G random_state) (length X) 1) as Hrg.
  destruct (draw_sample G (seed_state G random_state) (length X) 1) as [idx g1].
  cbn [fst snd] in *.
  destruct idx as [|i [|i' idx]]; try discriminate. cbn [map].
  destruct (Z.to_nat max_iters) as [|it] eqn:Hit; [lia|].
  rewrite (kmeans_loop_one_cluster G (Some fm) d 4 X it Henc HX Hr).
  - reflexivity.
  - unfold rect in Hr. rewrite Forall_forall in Hr.
    apply Hr, nth_In, Hrg. now left.
Qed.

Lemma quantum_kmeans_one_cluster_witness :
  quantum_kmeans CounterGen.gen [[0; 0]; [2; 4]] 1 10 (Some (FEATURE_MAPS Angle)) 7
  = Ok (repeat 0%nat (length [[0; 0]; [2; 4]]), [mean_axis0 [[0; 0]; [2; 4]]]).
Proof.
  apply (quantum_kmeans_one_cluster CounterGen.gen 2 [[0; 0]; [2; 4]] 10 Angle 7).
  - discriminate.
  - repeat constructor.
  - lia.
  - lia.
Defined.

(** ** The angle map builds a product state *)

Lemma scale_app (c : Cx.C) (a b : statevector) :
  scale c (a ++ b) = scale c a ++ scale c b.
Proof. apply map_app. Qed.

Lemma length_scale (c : Cx.C) (a : statevector) : length (scale c a) = length a.
Proof. apply length_map. Qed.

Lemma product_state_snoc (qs : list (Cx.C * Cx.C)) (t : Cx.C * Cx.C) :
  product_state (qs ++ [t])
  = scale (fst t) (product_state qs) ++ scale (snd t) (product_state qs).
Proof. unfold product_state. now rewrite rev_app_distr. Qed.

Lemma length_product_state (qs : list (Cx.C * Cx.C)) :
  length (product_state qs) = (2 ^ length qs)%nat.
Proof.
  induction qs as [|t qs IH] using rev_ind; [reflexivity|].
  rewrite product_state_snoc, !length_app, !length_scale, IH.
  simpl length. replace (length qs + 1)%nat with (S (length qs)) by lia.
  simpl. lia.
Qed.

Lemma zip_rows_scale (u v a b : Cx.C) (P : statevector) :
  zip_with (row_apply u v) (scale a P) (scale b P) = scale (row_apply u v a b) P.
Proof.
  induction P as [|z P IH]; simpl; [reflexivity|].
  fold (scale a P) (scale b P) (scale (row_apply u v a b) P). rewrite IH. f_equal.
  destruct u, v, a, b, z. unfold row_apply, Cx.add, Cx.mul; simpl. f_equal; ring.
Qed.

Lemma zip_rows_linear (c u v : Cx.C) (lo hi : statevector) :
  zip_with (row_apply u v) (scale c lo) (scale c hi)
  = scale c (zip_with (row_apply u v) lo hi).
Proof.
  revert hi. induction lo as [|x lo IH]; intros [|y hi]; simpl; try reflexivity.
  fold (scale c lo) (scale c hi). rewrite IH. f_equal.
  destruct c, u, v, x, y. unfold row_apply, Cx.add, Cx.mul; simpl. f_equal; ring.
Qed.

Lemma firstn_scale (c : Cx.C) (k : nat) (st : statevector) :
  firstn k (scale c st) = scale c (firstn k st).
Proof. apply firstn_map. Qed.

Lemma skipn_scale (c : Cx.C) (k : nat) (st : statevector) :
  skipn k (scale c st) = scale c (skipn k st).
Proof. apply skipn_map. Qed.

Lemma apply1_linear (u : mat2) (c : Cx.C) (n q : nat) :
  forall st, apply1 u n q (scale c st) = scale c (apply1 u n q st).
Proof.
  induction n as [|m IH]; intros st; [reflexivity|].
  cbn [apply1]. destruct u as [[[u00 u01] u10] u11].
  rewrite firstn_scale, skipn_scale.
  destruct (Nat.eqb q m).
  - now rewrite !zip_rows_linear, scale_app.
  - now rewrite !IH, scale_app.
Qed.

Lemma firstn_app_exact {A : Type} (a b : list A) (n : nat) :
  length a = n -> firstn n (a ++ b) = a /\ skipn n (a ++ b) = b.
Proof.
  intros <-. split.
  - rewrite firstn_app, Nat.sub_diag, firstn_all. simpl. apply app_nil_r.
  - rewrite skipn_app, Nat.sub_diag, skipn_all. reflexivity.
Qed.

(** A one-qubit gate on qubit [q] of a product state changes the state
    of that qubit only. *)
Lemma apply1_product (u : mat2) (qs : list (Cx.C * Cx.C)) :
  forall q, (q < length qs)%nat ->
    apply1 u (length qs) q (product_state qs)
    = product_state (set_nth q (mat_vec u (nth q qs (Cx.one, Cx.zero))) qs).
Proof.
  destruct u as [[[u00 u01] u10] u11].
  induction qs as [|t qs IH] using rev_ind; intros q Hq; [simpl in Hq; lia|].
  rewrite length_app in *. simpl length in *.
  replace (length qs + 1)%nat with (S (length qs)) in * by lia.
  cbn [apply1]. rewrite product_state_snoc.
  destruct (firstn_app_exact (scale (fst t) (product_state qs))
              (scale (snd t) (product_state qs)) (2 ^ length qs))
    as [-> ->]; [now rewrite length_scale, length_product_state|].
  destruct (Nat.eqb_spec q (length qs)) as [->|Hne].
  - rewrite !zip_rows_scale. unfold set_nth.
    rewrite firstn_app, Nat.sub_diag, firstn_all. simpl firstn. rewrite app_nil_r.
    rewrite skipn_all2 by (rewrite length_app; simpl; lia).
    rewrite nth_middle, product_state_snoc. reflexivity.
  - rewrite !apply1_linear, IH by lia.
    unfold set_nth.
    rewrite firstn_app, skipn_app.
    replace (q - length qs)%nat with 0%nat by lia.
    replace (S q - length qs)%nat with 0%nat by lia.
    simpl firstn. simpl skipn. rewrite app_nil_r.
    rewrite app_nth1 by lia.
    rewrite app_comm_cons, app_assoc, product_state_snoc. reflexivity.
Qed.

Lemma scale_one (P : statevector) : scale Cx.one P = P.
Proof.
  induction P as [|[a b] P IH]; simpl; [reflexivity|].
  fold (scale Cx.one P). rewrite IH. f_equal.
  unfold Cx.mul, Cx.one; simpl. f_equal; ring.
Qed.

Lemma scale_zero (P : statevector) : scale Cx.zero P = repeat Cx.zero (length P).
Proof.
  induction P as [|[a b] P IH]; simpl; [reflexivity|].
  fold (scale Cx.zero P). rewrite IH. f_equal.
  unfold Cx.mul, Cx.zero; simpl. f_equal; ring.
Qed.

(** The all-zero basis state is the product of [n] qubits in state 0. *)
Lemma zero_state_product (n : nat) :
  zero_state n = product_state (repeat (Cx.one, Cx.zero) n).
Proof.
  induction n as [|n IH]; [reflexivity|].
  cbn [repeat]. rewrite repeat_cons, product_state_snoc. cbn [fst snd].
  rewrite scale_one, scale_zero, length_product_state, repeat_length, <- IH.
  unfold zero_state. cbn [app]. f_equal.
  rewrite <- repeat_app. f_equal.
  pose proof (pow2_pos n). simpl. lia.
Qed.

(** [ry(x)] then [rz(x / 2)] take a qubit from state 0 to
    [qubit_state x]. *)
Lemma angle_gates_on_zero (x : R) :
  mat_vec (mat_rz (x / 2)) (mat_vec (mat_ry x) (Cx.one, Cx.zero)) = qubit_state x.
Proof.
  unfold mat_vec, mat_rz, mat_ry, qubit_state, row_apply.
  unfold Cx.add, Cx.mul, Cx.of_R, Cx.expi, Cx.one, Cx.zero; simpl.
  replace (- (x / 2) / 2) with (- (x / 4)) by lra.
  replace (x / 2 / 2) with (x / 4) by lra.
  rewrite cos_neg, sin_neg.
  f_equal; f_equal; ring.
Qed.

Lemma set_nth_middle {A : Type} (a b : list A) (z v : A) :
  set_nth (length a) v (a ++ z :: b) = a ++ v :: b.
Proof.
  unfold set_nth.
  rewrite firstn_app, Nat.sub_diag, firstn_all. simpl firstn. rewrite app_nil_r.
  rewrite skipn_app, skipn_all2 by lia.
  replace (S (length a) - length a)%nat with 1%nat by lia. reflexivity.
Qed.

Lemma firstn_succ_nth (x : list R) (s : nat) :
  (s < length x)%nat -> firstn (S s) x = firstn s x ++ [nth s x 0].
Proof.
  revert s. induction x as [|v x IH]; intros s Hs; simpl in Hs; [lia|].
  destruct s as [|s]; [reflexivity|].
  cbn [firstn nth app]. f_equal. apply IH. lia.
Qed.

Lemma lookup_combine_seq (x : list R) :
  forall len s i, (len <= length x)%nat -> (s <= i < s + len)%nat ->
    lookup i (combine (seq s len) x) = Some (nth (i - s) x 0).
Proof.
  induction x as [|v x IH]; intros len s i Hlen Hi; simpl in Hlen.
  - lia.
  - destruct len as [|len]; [lia|]. cbn [seq combine lookup].
    destruct (Nat.eqb_spec i s) as [->|Hne].
    + now rewrite Nat.sub_diag.
    + rewrite (IH len (S s) i) by lia.
      replace (i - s)%nat with (S (i - S s)) by lia. reflexivity.
Qed.

Lemma apply1_product_at (u : mat2) (n q : nat) (a b : list (Cx.C * Cx.C))
                        (z : Cx.C * Cx.C) :
  length a = q -> length (a ++ z :: b) = n ->
  apply1 u n q (product_state (a ++ z :: b))
  = product_state (a ++ mat_vec u z :: b).
Proof.
  intros <- <-. rewrite apply1_product by (rewrite length_app; simpl; lia).
  now rewrite nth_middle, set_nth_middle.
Qed.

Lemma run_angle_gates (n : nat) (x : list R) (d : binding) :
  (forall i, (i < n)%nat -> lookup i d = Some (nth i x 0)) ->
  (n <= length x)%nat ->
  forall len s, (s + len <= n)%nat ->
    run_gates n (map (gate_bind d) (angle_gates s len))
      (product_state (map qubit_state (firstn s x)
                      ++ repeat (Cx.one, Cx.zero) (n - s)))
    = Ok (product_state (map qubit_state (firstn (s + len) x)
                         ++ repeat (Cx.one, Cx.zero) (n - (s + len)))).
Proof.
  intros Hd Hn. induction len as [|len IH]; intros s Hs.
  - now rewrite Nat.add_0_r.
  - unfold angle_gates. cbn [seq flat_map app map gate_bind pexpr_bind].
    rewrite (Hd s) by lia. cbn [run_gates apply_gate pexpr_value bind].
    rewrite check_qubit_ok by lia. cbn [bind].
    replace (n - s)%nat with (S (n - S s)) by lia. cbn [repeat].
    assert (Hls : length (map qubit_state (firstn s x)) = s).
    { rewrite length_map, length_firstn. lia. }
    assert (Hlen : forall v, length (map qubit_state (firstn s x)
                                     ++ v :: repeat (Cx.one, Cx.zero) (n - S s)) = n).
    { intros v. rewrite length_app, Hls. simpl. rewrite repeat_length. lia. }
    rewrite (apply1_product_at _ n s) by (exact Hls || apply Hlen).
    rewrite (apply1_product_at _ n s) by (exact Hls || apply Hlen).
    rewrite angle_gates_on_zero.
    fold (angle_gates (S s) len).
    replace (map qubit_state (firstn s x)
             ++ qubit_state (nth s x 0) :: repeat (Cx.one, Cx.zero) (n - S s))
      with (map qubit_state (firstn (S s) x) ++ repeat (Cx.one, Cx.zero) (n - S s)).
    + rewrite IH by lia. now rewrite Nat.add_succ_r.
    + rewrite firstn_succ_nth by lia.
      rewrite map_app, <- app_assoc. reflexivity.
Qed.

Lemma angle_encode_product_eq (n : nat) (fm : QuantumCircuit) (x : list R) :
  build_angle_encoding_map n = Ok fm -> (n <= length x)%nat ->
  encode_to_statevector (Some fm) x
  = Ok (product_state (map qubit_state (firstn n x))).
Proof.
  intros E Hn.
  assert (Hp : parameters fm = seq 0 n).
  { apply parameters_of_range. intros i. now apply (angle_vars n). }
  injection E as <-. unfold encode_to_statevector, from_instruction.
  rewrite Hp. cbn [bind_parameters num_qubits data].
  rewrite zero_state_product.
  pose proof (run_angle_gates n x (combine (seq 0 n) x)) as Hrun.
  specialize (Hrun
    (fun i Hi => eq_trans (lookup_combine_seq x n 0 i Hn (conj (Nat.le_0_l i) Hi))
                          (f_equal (fun j => Some (nth j x 0)) (Nat.sub_0_r i)))
    Hn n 0%nat (Nat.le_refl n)).
  cbn [firstn map app Nat.add] in Hrun. rewrite Nat.sub_0_r, Nat.sub_diag in Hrun.
  cbn [repeat] in Hrun. rewrite app_nil_r in Hrun.
  unfold angle_gates in Hrun. rewrite Hrun. reflexivity.
Qed.

(** The [n]-qubit angle map encodes a point of at least [n] components
    into the product of the one-qubit states of its first [n]
    components: amplitude [k], of [2^n], is the product, over the qubits
    [i], of [e^{-i x_i/4} cos(x_i/2)] where bit [i] of [k] is 0 and of
    [e^{i x_i/4} sin(x_i/2)] where it is 1. *)
Theorem angle_encode_product (n : nat) (fm : QuantumCircuit) (x : list R) :
  build_angle_encoding_map n = Ok fm -> (n <= length x)%nat ->
  encode_to_statevector (Some fm) x
  = Ok (product_state (map qubit_state (firstn n x)))
  /\ length (product_state (map qubit_state (firstn n x))) = (2 ^ n)%nat.
Proof.
  intros E Hn. split.
  - now apply angle_encode_product_eq.
  - rewrite length_product_state, length_map, length_firstn.
    f_equal. lia.
Qed.

Lemma angle_encode_product_witness :
  encode_to_statevector (Some angle2) [1; 2; 3]
  = Ok (product_state (map qubit_state (firstn 2 [1; 2; 3])))
  /\ length (product_state (map qubit_state (firstn 2 [1; 2; 3]))) = (2 ^ 2)%nat.
Proof.
  apply (angle_encode_product 2 angle2 [1; 2; 3]).
  - exact angle2_built.
  - simpl. lia.
Defined.

(** ** The fidelity of two angle-encoded points *)

Lemma vdot_sum_app (a b c d : list Cx.C) :
  length a = length c ->
  vdot_sum (a ++ b) (c ++ d) = Cx.add (vdot_sum a c) (vdot_sum b d).
Proof.
  revert c. induction a as [|x a IH]; intros [|y c] Hlen; simpl in *;
    try discriminate.
  - destruct (vdot_sum b d). unfold Cx.add, Cx.zero; simpl. f_equal; ring.
  - rewrite IH by lia.
    destruct x, y, (vdot_sum a c), (vdot_sum b d).
    unfold Cx.add, Cx.mul, Cx.conj; simpl. f_equal; ring.
Qed.

Lemma vdot_sum_scale_both (s t : Cx.C) (a b : list Cx.C) :
  vdot_sum (scale s a) (scale t b)
  = Cx.mul (Cx.mul (Cx.conj s) t) (vdot_sum a b).
Proof.
  revert b. induction a as [|x a IH]; intros [|y b]; simpl;
    try (destruct s, t; unfold Cx.mul, Cx.conj, Cx.zero; simpl; f_equal; ring).
  fold (scale s a) (scale t b). rewrite IH.
  destruct s, t, x, y, (vdot_sum a b).
  unfold Cx.add, Cx.mul, Cx.conj; simpl. f_equal; ring.
Qed.

Lemma length_product_rev (qs : list (Cx.C * Cx.C)) :
  length (product_rev qs) = (2 ^ length qs)%nat.
Proof.
  rewrite <- (rev_involutive qs) at 1.
  change (product_rev (rev (rev qs))) with (product_state (rev qs)).
  now rewrite length_product_state, length_rev.
Qed.

Lemma norm2_vdot_product_rev (qs ps : list (Cx.C * Cx.C)) :
  length qs = length ps ->
  Cx.norm2 (vdot_sum (product_rev qs) (product_rev ps))
  = rprod (zip_with (fun q p => Cx.norm2 (qubit_overlap q p)) qs ps).
Proof.
  revert ps. induction qs as [|q qs IH]; intros [|p ps] Hlen; simpl in Hlen;
    try discriminate.
  - simpl. unfold Cx.norm2, Cx.add, Cx.mul, Cx.conj, Cx.one, Cx.zero; simpl. ring.
  - cbn [product_rev zip_with rprod fold_right].
    fold (rprod (zip_with (fun q p => Cx.norm2 (qubit_overlap q p)) qs ps)).
    rewrite <- IH by lia.
    rewrite vdot_sum_app
      by (rewrite !length_scale, !length_product_rev; f_equal; lia).
    rewrite !vdot_sum_scale_both.
    destruct q as [[q0r q0i] [q1r q1i]], p as [[p0r p0i] [p1r p1i]].
    destruct (vdot_sum (product_rev qs) (product_rev ps)) as [vr vi].
    unfold qubit_overlap, Cx.norm2, Cx.add, Cx.mul, Cx.conj; simpl. ring.
Qed.

Lemma rprod_app (a b : list R) : rprod (a ++ b) = rprod a * rprod b.
Proof.
  unfold rprod. induction a as [|x a IH]; simpl; [ring|]. rewrite IH. ring.
Qed.

Lemma rprod_rev (l : list R) : rprod (rev l) = rprod l.
Proof.
  induction l as [|x l IH]; [reflexivity|].
  simpl rev. rewrite rprod_app, IH. unfold rprod. simpl. ring.
Qed.

Lemma zip_with_app {A B D : Type} (f : A -> B -> D) (a a' : list A) (b b' : list B) :
  length a = length b ->
  zip_with f (a ++ a') (b ++ b') = zip_with f a b ++ zip_with f a' b'.
Proof.
  revert b. induction a as [|x a IH]; intros [|y b] Hlen; simpl in *;
    try discriminate; [reflexivity|].
  f_equal. apply IH. lia.
Qed.

Lemma zip_with_rev {A B D : Type} (f : A -> B -> D) (a : list A) (b : list B) :
  length a = length b ->
  zip_with f (rev a) (rev b) = rev (zip_with f a b).
Proof.
  revert b. induction a as [|x a IH]; intros [|y b] Hlen; simpl in *;
    try discriminate; [reflexivity|].
  rewrite zip_with_app by (rewrite !length_rev; lia).
  rewrite IH by lia. reflexivity.
Qed.

Lemma zip_with_map {A B D : Type} (g : B -> B -> D) (f : A -> B) (a b : list A) :
  zip_with g (map f a) (map f b) = zip_with (fun u v => g (f u) (f v)) a b.
Proof.
  revert b. induction a as [|x a IH]; intros [|y b]; simpl; try reflexivity.
  f_equal. apply IH.
Qed.

Lemma zip_with_ext {A B D : Type} (f g : A -> B -> D) (a : list A) (b : list B) :
  (forall u v, f u v = g u v) -> zip_with f a b = zip_with g a b.
Proof.
  intros H. revert b. induction a as [|x a IH]; intros [|y b]; simpl;
    try reflexivity.
  rewrite H. f_equal. apply IH.
Qed.

(** The fidelity of two one-qubit angle states. *)
Lemma qubit_overlap_angle (a b : R) :
  Cx.norm2 (qubit_overlap (qubit_state a) (qubit_state b)) = angle_fidelity a b.
Proof.
  unfold angle_fidelity.
  replace ((a - b) / 4) with (a / 4 - b / 4) by lra.
  replace ((a - b) / 2) with (a / 2 - b / 2) by lra.
  replace ((a + b) / 2) with (a / 2 + b / 2) by lra.
  rewrite !cos_minus, sin_minus, cos_plus.
  unfold qubit_overlap, qubit_state, Cx.norm2, Cx.add, Cx.mul, Cx.conj; simpl.
  ring.
Qed.

Lemma fidelity_angle_states (xs ys : list R) :
  length xs = length ys ->
  fidelity (product_state (map qubit_state xs)) (product_state (map qubit_state ys))
  = Ok (rprod (zip_with angle_fidelity xs ys)).
Proof.
  intros Hlen.
  rewrite fidelity_eq by (rewrite !length_product_state, !length_map; now f_equal).
  f_equal. unfold product_state.
  rewrite norm2_vdot_product_rev by (rewrite !length_rev, !length_map; exact Hlen).
  rewrite zip_with_rev, rprod_rev by (rewrite !length_map; exact Hlen).
  rewrite zip_with_map. f_equal.
  apply zip_with_ext. intros u v. apply qubit_overlap_angle.
Qed.

(** The fidelity of two points encoded by the [n]-qubit angle map is the
    product over the qubits of
    [cos^2((a-b)/4) cos^2((a-b)/2) + sin^2((a-b)/4) cos^2((a+b)/2)],
    [a] and [b] the two values of the component; the quantum distance is
    one minus this product.  It depends on the sums [a + b] too: it is
    not a function of the difference of the points. *)
Theorem angle_fidelity_formula (n : nat) (fm : QuantumCircuit) (x y : list R) :
  build_angle_encoding_map n = Ok fm ->
  (n <= length x)%nat -> (n <= length y)%nat ->
  exists sx sy,
    encode_to_statevector (Some fm) x = Ok sx
    /\ encode_to_statevector (Some fm) y = Ok sy
    /\ fidelity sx sy
       = Ok (rprod (zip_with angle_fidelity (firstn n x) (firstn n y)))
    /\ quantum_distance sx sy
       = Ok (1 - rprod (zip_with angle_fidelity (firstn n x) (firstn n y))).
Proof.
  intros E Hx Hy.
  exists (product_state (map qubit_state (firstn n x))),
         (product_state (map qubit_state (firstn n y))).
  assert (Hf : fidelity (product_state (map qubit_state (firstn n x)))
                        (product_state (map qubit_state (firstn n y)))
               = Ok (rprod (zip_with angle_fidelity (firstn n x) (firstn n y)))).
  { apply fidelity_angle_states. rewrite !length_firstn. lia. }
  repeat split.
  - now apply (angle_encode_product_eq n).
  - now apply (angle_encode_product_eq n).
  - exact Hf.
  - unfold quantum_distance. now rewrite Hf.
Qed.

Lemma angle_fidelity_formula_witness :
  exists sx sy,
    encode_to_statevector (Some angle2) [0; 1] = Ok sx
    /\ encode_to_statevector (Some angle2) [2; 3] = Ok sy
    /\ fidelity sx sy
       = Ok (rprod (zip_with angle_fidelity (firstn 2 [0; 1]) (firstn 2 [2; 3])))
    /\ quantum_distance sx sy
       = Ok (1 - rprod (zip_with angle_fidelity (firstn 2 [0; 1]) (firstn 2 [2; 3]))).
Proof.
  apply (angle_fidelity_formula 2 angle2 [0; 1] [2; 3]).
  - exact angle2_built.
  - simpl. lia.
  - simpl. lia.
Defined.

(** ** Points the angle map cannot tell apart *)

Lemma cos_add_2PI (t : R) : cos (t + 2 * PI) = cos t.
Proof. rewrite cos_plus, cos_2PI, sin_2PI. ring. Qed.

Lemma angle_fidelity_shift (a b : R) :
  angle_fidelity (a + 4 * PI) b = angle_fidelity a b.
Proof.
  unfold angle_fidelity.
  replace ((a + 4 * PI - b) / 4) with ((a - b) / 4 + PI) by lra.
  replace ((a + 4 * PI - b) / 2) with ((a - b) / 2 + 2 * PI) by lra.
  replace ((a + 4 * PI + b) / 2) with ((a + b) / 2 + 2 * PI) by lra.
  rewrite neg_cos, neg_sin, !cos_add_2PI. ring.
Qed.

Lemma angle_fidelity_same (a : R) : angle_fidelity a a = 1.
Proof.
  unfold angle_fidelity.
  replace ((a - a) / 4) with 0 by lra. replace ((a - a) / 2) with 0 by lra.
  rewrite cos_0, sin_0. ring.
Qed.

Lemma angle_fidelity_sym (a b : R) : angle_fidelity a b = angle_fidelity b a.
Proof.
  unfold angle_fidelity.
  replace ((b - a) / 4) with (- ((a - b) / 4)) by lra.
  replace ((b - a) / 2) with (- ((a - b) / 2)) by lra.
  replace (b + a) with (a + b) by lra.
  rewrite !cos_neg, sin_neg. ring.
Qed.

Lemma Forall2_firstn {A B : Type} (P : A -> B -> Prop) (a : list A) (b : list B) :
  Forall2 P a b -> forall n, Forall2 P (firstn n a) (firstn n b).
Proof.
  induction 1 as [|x y a b Hxy _ IH]; intros [|n]; simpl; constructor; auto.
Qed.

Lemma rprod_shifted_self (xs xs' : list R) :
  Forall2 shifted xs xs' -> rprod (zip_with angle_fidelity xs xs') = 1.
Proof.
  induction 1 as [|a a' xs xs' Ha _ IH]; [reflexivity|].
  cbn [zip_with rprod fold_right].
  fold (rprod (zip_with angle_fidelity xs xs')). rewrite IH.
  destruct Ha as [->| ->].
  - rewrite angle_fidelity_same. ring.
  - rewrite angle_fidelity_sym, angle_fidelity_shift, angle_fidelity_same. ring.
Qed.

Lemma rprod_shifted_other (xs xs' : list R) :
  Forall2 shifted xs xs' ->
  forall ys, rprod (zip_with angle_fidelity xs' ys)
             = rprod (zip_with angle_fidelity xs ys).
Proof.
  induction 1 as [|a a' xs xs' Ha _ IH]; intros [|b ys]; try reflexivity.
  cbn [zip_with rprod fold_right].
  fold (rprod (zip_with angle_fidelity xs' ys))
       (rprod (zip_with angle_fidelity xs ys)).
  rewrite IH. destruct Ha as [->| ->]; [reflexivity|].
  now rewrite angle_fidelity_shift.
Qed.

(** The angle map does not separate a point from the point with some
    components moved by [4 pi]: the quantum distance between the two is
    0, and both are at the same quantum distance from every other
    point. *)
Theorem angle_encoding_aliases (n : nat) (fm : QuantumCircuit) (x x' y : list R) :
  build_angle_encoding_map n = Ok fm ->
  (n <= length x)%nat -> (n <= length y)%nat ->
  Forall2 shifted x x' ->
  exists s s' sy,
    encode_to_statevector (Some fm) x = Ok s
    /\ encode_to_statevector (Some fm) x' = Ok s'
    /\ encode_to_statevector (Some fm) y = Ok sy
    /\ quantum_distance s s' = Ok 0
    /\ quantum_distance s' sy = quantum_distance s sy.
Proof.
  intros E Hx Hy Hs.
  pose proof (Forall2_length Hs) as Hlen.
  pose proof (Forall2_firstn _ _ _ Hs n) as Hsn.
  exists (product_state (map qubit_state (firstn n x))),
         (product_state (map qubit_state (firstn n x'))),
         (product_state (map qubit_state (firstn n y))).
  repeat split.
  - now apply (angle_encode_product_eq n).
  - apply (angle_encode_product_eq n); [assumption | lia].
  - now apply (angle_encode_product_eq n).
  - unfold quantum_distance.
    rewrite fidelity_angle_states by (rewrite !length_firstn; lia).
    rewrite (rprod_shifted_self _ _ Hsn). cbn [bind]. f_equal. ring.
  - unfold quantum_distance.
    rewrite !fidelity_angle_states by (rewrite !length_firstn; lia).
    now rewrite (rprod_shifted_other _ _ Hsn).
Qed.

Lemma angle_encoding_aliases_witness :
  exists s s' sy,
    encode_to_statevector (Some angle2) [0; 1] = Ok s
    /\ encode_to_statevector (Some angle2) [0 + 4 * PI; 1] = Ok s'
    /\ encode_to_statevector (Some angle2) [2; 3] = Ok sy
    /\ quantum_distance s s' = Ok 0
    /\ quantum_distance s' sy = quantum_distance s sy.
Proof.
  apply (angle_encoding_aliases 2 angle2 [0; 1] [0 + 4 * PI; 1] [2; 3]).
  - exact angle2_built.
  - simpl. lia.
  - simpl. lia.
  - constructor; [right; reflexivity|].
    constructor; [left; reflexivity | constructor].
Defined.

(** ** [_encode_points] *)

Lemma encode_points_enough (fm : QuantumCircuit) (M : matrix) :
  circuit_wf fm ->
  Forall (fun row => (length (parameters fm) <= length row)%nat) M ->
  exists states,
    _encode_points (Some fm) M = Ok states
    /\ length states = length M
    /\ Forall (fun s => length s = (2 ^ num_qubits fm)%nat /\ sq_amp_sum s = 1) states.
Proof.
  intros Hwf HM. unfold _encode_points. apply mapM_exists.
  intros row Hin. rewrite Forall_forall in HM.
  destruct (encode_enough fm row Hwf (HM row Hin)) as (st & E & L & N).
  exists st. auto.
Qed.

Lemma encode_points_short (fm : QuantumCircuit) (M : matrix) :
  circuit_wf fm ->
  Exists (fun row => (length row < length (parameters fm))%nat) M ->
  _encode_points (Some fm) M = Err UnboundParameter.
Proof.
  intros Hwf HM. unfold _encode_points.
  induction HM as [row M Hrow|row M _ IH]; cbn [mapM].
  - now rewrite encode_short.
  - destruct (Nat.lt_ge_cases (length row) (length (parameters fm))) as [Hlt|Hge].
    + now rewrite encode_short.
    + destruct (encode_enough fm row Hwf Hge) as (st & E & _).
      rewrite E. cbn [bind]. now rewrite IH.
Qed.

(** On a well-formed feature map, [_encode_points] returns one
    statevector per point, each of [2^q] amplitudes and unit squared sum,
    when every point has a value for every free parameter; when some
    point is shorter it raises, returning nothing for the other points. *)
Theorem encode_points_outcome (fm : QuantumCircuit) (M : matrix) :
  circuit_wf fm ->
  (Forall (fun row => (length (parameters fm) <= length row)%nat) M ->
   exists states,
     _encode_points (Some fm) M = Ok states
     /\ length states = length M
     /\ Forall (fun s => length s = (2 ^ num_qubits fm)%nat /\ sq_amp_sum s = 1)
               states)
  /\ (Exists (fun row => (length row < length (parameters fm))%nat) M ->
      _encode_points (Some fm) M = Err UnboundParameter).
Proof.
  intros Hwf. split.
  - now apply encode_points_enough.
  - now apply encode_points_short.
Qed.

Lemma encode_points_outcome_witness :
  _encode_points (Some angle2) [[0; 0]; [1]] = Err UnboundParameter.
Proof.
  destruct (encode_points_outcome angle2 [[0; 0]; [1]]
              (angle_wf 2 angle2 angle2_built)) as [_ Hshort].
  apply Hshort. apply Exists_cons_tl, Exists_cons_hd.
  rewrite angle2_parameters. simpl. lia.
Defined.

(** ** Points with too few components *)

(** On a non-empty dataset of points with fewer than two components,
    with a cluster count the sampler accepts and at least one iteration,
    [quantum_kmeans] fails for either feature map kind: the first
    encoding leaves a parameter of the two-qubit map free. *)
Theorem quantum_kmeans_short_points
        (G : Generator) (d : nat) (X : matrix) (k max_iters : Z)
        (kind : feature_map_kind) (random_state : N) :
  X <> [] -> rect d X -> (d < 2)%nat ->
  (0 <= k <= Z.of_nat (length X))%Z -> (1 <= max_iters)%Z ->
  quantum_kmeans G X k max_iters (Some (FEATURE_MAPS kind)) random_state
  = Err UnboundParameter.
Proof.
  intros HX Hr Hd Hk Hm.
  destruct (feature_maps_encode kind 2 (le_n 2)) as (fm & Efm & Hp & Hwf & _).
  unfold quantum_kmeans. rewrite Efm. cbn [bind].
  rewrite initialize_centers_ok by lia. cbn [bind].
  destruct (Z.to_nat max_iters) as [|it] eqn:Hit; [lia|].
  cbn [kmeans_loop].
  rewrite (encode_points_short fm X Hwf); [reflexivity|].
  destruct X as [|row X]; [congruence|].
  apply Exists_cons_hd. apply Forall_inv in Hr. lia.
Qed.

Lemma quantum_kmeans_short_points_witness :
  quantum_kmeans CounterGen.gen [[0]; [1]] 2 5 (Some (FEATURE_MAPS ZZ)) 3
  = Err UnboundParameter.
Proof.
  apply (quantum_kmeans_short_points CounterGen.gen 1 [[0]; [1]] 2 5 ZZ 3).
  - discriminate.
  - repeat constructor.
  - lia.
  - simpl. lia.
  - lia.
Defined.

(** ** The kernel of an encoded dataset *)

(** Encoding a dataset whose points have a value for every free
    parameter and taking the kernel of the result never fails: the
    kernel is an [n x n] symmetric matrix of values in [0, 1] with 1 on
    the diagonal. *)
Theorem kernel_of_encoded_points (fm : QuantumCircuit) (X : matrix) :
  circuit_wf fm ->
  Forall (fun row => (length (parameters fm) <= length row)%nat) X ->
  exists states K,
    _encode_points (Some fm) X = Ok states
    /\ compute_quantum_kernel states = Ok K
    /\ length K = length X
    /\ (forall i, (i < length X)%nat -> nth i (nth i K []) 0 = 1)
    /\ (forall i j, (i < length X)%nat -> (j < length X)%nat ->
          0 <= nth j (nth i K []) 0 <= 1
          /\ nth j (nth i K []) 0 = nth i (nth j K []) 0).
Proof.
  intros Hwf HX.
  destruct (encode_points_enough fm X Hwf HX) as (states & E & Hl & Hs).
  assert (HL : Forall (fun s => length s = (2 ^ num_qubits fm)%nat) states).
  { apply Forall_forall. intros s Hin. rewrite Forall_forall in Hs.
    now apply Hs. }
  assert (HU : Forall (fun s => sq_amp_sum s = 1) states).
  { apply Forall_forall. intros s Hin. rewrite Forall_forall in Hs.
    now apply Hs. }
  exists states. eexists. split; [exact E|].
  split; [exact (kernel_eq _ states HL)|].
  rewrite <- Hl. rewrite Forall_forall in HU.
  assert (Hn : forall i, (i < length states)%nat -> norm2_sum (nth i states []) = 1).
  { intros i Hi. rewrite <- sq_amp_sum_norm2. apply HU, nth_In, Hi. }
  split; [now rewrite length_map|]. split.
  - intros i Hi.
    rewrite (nth_map_lt _ states i [] []), (nth_map_lt _ states i [] 0) by assumption.
    rewrite vdot_sum_self, (Hn i Hi). unfold Cx.norm2; simpl. ring.
  - intros i j Hi Hj.
    rewrite (nth_map_lt _ states i [] []), (nth_map_lt _ states j [] 0) by assumption.
    rewrite (nth_map_lt _ states j [] []), (nth_map_lt _ states i [] 0) by assumption.
    split.
    + pose proof (vdot_sum_bound (nth i states []) (nth j states [])) as Hb.
      rewrite (Hn i Hi), (Hn j Hj) in Hb.
      pose proof (norm2_nonneg (vdot_sum (nth i states []) (nth j states []))). lra.
    + rewrite (vdot_sum_conj (nth j states []) (nth i states [])).
      now rewrite norm2_conj.
Qed.

Lemma kernel_of_encoded_points_witness :
  exists states K,
    _encode_points (Some angle2) [[0; 0]; [1; 2]] = Ok states
    /\ compute_quantum_kernel states = Ok K
    /\ length K = 2%nat.
Proof.
  destruct (kernel_of_encoded_points angle2 [[0; 0]; [1; 2]])
    as (states & K & E & EK & LK & _).
  - exact (angle_wf 2 angle2 angle2_built).
  - rewrite angle2_parameters. repeat constructor.
  - exists states, K. repeat split; assumption.
Defined.

(** ** The clusters partition the data *)

Lemma list_sum_cons (a : nat) (l : list nat) :
  list_sum (a :: l) = (a + list_sum l)%nat.
Proof. reflexivity. Qed.

Lemma count_none (l : nat) :
  forall len s, (forall k, In k (seq s len) -> k <> l) ->
    list_sum (map (fun k => if Nat.eqb l k then 1%nat else 0%nat) (seq s len))
    = 0%nat.
Proof.
  induction len as [|len IH]; intros s H; [reflexivity|].
  cbn [seq map]. rewrite list_sum_cons.
  destruct (Nat.eqb_spec l s) as [->|_].
  - exfalso. apply (H s); [now left | reflexivity].
  - rewrite IH; [reflexivity|]. intros k Hk. apply H. now right.
Qed.

Lemma count_one (l K : nat) :
  (l < K)%nat ->
  list_sum (map (fun k => if Nat.eqb l k then 1%nat else 0%nat) (seq 0 K)) = 1%nat.
Proof.
  intros Hl. replace K with (l + S (K - S l))%nat by lia.
  rewrite seq_app, map_app, list_sum_app. cbn [seq map Nat.add].
  rewrite list_sum_cons, Nat.eqb_refl.
  rewrite (count_none l l 0%nat), (count_none l (K - S l)%nat (S l)).
  - reflexivity.
  - intros k Hk. apply in_seq in Hk. lia.
  - intros k Hk. apply in_seq in Hk. lia.
Qed.

Lemma list_sum_map_add {A : Type} (f g : A -> nat) (l : list A) :
  list_sum (map (fun a => (f a + g a)%nat) l)
  = (list_sum (map f l) + list_sum (map g l))%nat.
Proof. induction l as [|a l IH]; simpl; [reflexivity | rewrite IH; lia]. Qed.

(** With one label below [K] for every point, every point is a row of
    exactly one of the masks [X[labels == k]], [k] in [range(K)]: the
    sizes of the clusters add up to the number of points. *)
Theorem cluster_rows_partition (X : matrix) (labels : list nat) (K : nat) :
  length labels = length X ->
  Forall (fun l => (l < K)%nat) labels ->
  list_sum (map (fun k => length (cluster_rows X labels k)) (seq 0 K)) = length X.
Proof.
  revert labels. induction X as [|row X IH]; intros [|l labels] Hlen Hl;
    simpl in Hlen; try discriminate.
  - clear. induction (seq 0 K) as [|k ks IHk]; [reflexivity | exact IHk].
  - apply Forall_cons_iff in Hl. destruct Hl as [Hl Hls].
    specialize (IH labels ltac:(lia) Hls).
    rewrite (map_ext _ (fun k => ((if Nat.eqb l k then 1 else 0)
                                  + length (cluster_rows X labels k))%nat)).
    + rewrite list_sum_map_add, (count_one l K Hl), IH. reflexivity.
    + intros k. unfold cluster_rows. cbn [combine filter snd].
      destruct (Nat.eqb l k); reflexivity.
Qed.

Lemma cluster_rows_partition_witness :
  list_sum (map (fun k => length (cluster_rows [[0; 0]; [1; 1]; [2; 2]]
                                               [1%nat; 0%nat; 1%nat] k))
                (seq 0 2))
  = length [[0; 0]; [1; 1]; [2; 2]].
Proof.
  apply (cluster_rows_partition [[0; 0]; [1; 1]; [2; 2]] [1%nat; 0%nat; 1%nat] 2).
  - reflexivity.
  - repeat constructor.
Defined.
